(** * DeepyEngine: the chunking-and-retrieval pipeline of backend/engine.py

    A shallow embedding of [DeepyEngine._split_into_chunks],
    [_ingest_awesome_format], [_ingest_single_file], [ingest_file], [search],
    [generate_answer] and [chat], with the Python [str] methods they call.

    A Python [str] is a sequence of Unicode code points: it is modelled as a
    list of [N].  Integers are [Z]; the [while] loop of the chunker is run
    with fuel, so that a run that never leaves the loop is visible as [None]
    for every fuel. *)

From Stdlib Require Import ZArith Ascii String.
From stdpp Require Import gmap strings list pretty.

Local Open Scope Z_scope.

Abbreviation str := (list N) (only parsing).

(** ** Python [str] primitives *)

Module PyStr.

(** A literal of the source, written as a Rocq string (ASCII only). *)
Definition py (s : string) : str := N_of_ascii <$> list_ascii_of_string s.

Definition len {A} (s : list A) : Z := Z.of_nat (length s).

(** [s[a:b]]: a negative index counts from the end, then both are clamped
    to [0, len s]. *)
Definition clamp (n i : Z) : Z :=
  if i <? 0 then Z.max (i + n) 0 else Z.min i n.

Definition slice {A} (s : list A) (a b : Z) : list A :=
  let a' := clamp (len s) a in
  let b' := clamp (len s) b in
  take (Z.to_nat (b' - a')) (drop (Z.to_nat a') s).

(** [str.isspace] on one code point, the set [str.strip()] removes. *)
Definition is_space (c : N) : bool :=
  ((9 <=? c) && (c <=? 13) || (28 <=? c) && (c <=? 32)
   || (c =? 133) || (c =? 160) || (c =? 5760)
   || (8192 <=? c) && (c <=? 8202)
   || (c =? 8232) || (c =? 8233) || (c =? 8239) || (c =? 8287)
   || (c =? 12288))%N.

Fixpoint lstrip (s : str) : str :=
  match s with
  | c :: s' => if is_space c then lstrip s' else s
  | [] => []
  end.

Definition rstrip (s : str) : str := reverse (lstrip (reverse s)).

Definition strip (s : str) : str := rstrip (lstrip s).

(** [s.rfind(c)] for a one-character needle: the highest index holding
    [c], or -1. *)
Fixpoint rfind_from (c : N) (s : str) (i : Z) : Z :=
  match s with
  | [] => -1
  | x :: s' =>
      let r := rfind_from c s' (i + 1) in
      if 0 <=? r then r else if (x =? c)%N then i else -1
  end.

Definition rfind (s : str) (c : N) : Z := rfind_from c s 0.

Fixpoint startswith_list (s pre : str) : bool :=
  match pre, s with
  | [], _ => true
  | p :: pre', x :: s' => (x =? p)%N && startswith_list s' pre'
  | _ :: _, [] => false
  end.

Definition startswith (s pre : str) : bool := startswith_list s pre.

(** [s.split(sep)] for a non-empty separator: left-to-right,
    non-overlapping.  [skip] counts the characters of a matched separator
    still to pass over; [cur] is the current field, reversed. *)
Fixpoint split_go (sep s : str) (skip : nat) (cur : str) : list str :=
  match s with
  | [] => [reverse cur]
  | c :: s' =>
      match skip with
      | S k => split_go sep s' k cur
      | O =>
          if startswith s sep
          then reverse cur :: split_go sep s' (length sep - 1) []
          else split_go sep s' O (c :: cur)
      end
  end.

Definition split (s sep : str) : list str := split_go sep s O [].

(** [sep.join(parts)] *)
Fixpoint join (sep : str) (parts : list str) : str :=
  match parts with
  | [] => []
  | [p] => p
  | p :: rest => p ++ sep ++ join sep rest
  end.

(** [s.replace(old, new)] for a non-empty [old]: every non-overlapping
    occurrence, left to right. *)
Fixpoint replace_go (old new s : str) (skip : nat) : str :=
  match s with
  | [] => []
  | c :: s' =>
      match skip with
      | S k => replace_go old new s' k
      | O =>
          if startswith s old
          then new ++ replace_go old new s' (length old - 1)
          else c :: replace_go old new s' O
      end
  end.

Definition replace (s old new : str) : str := replace_go old new s O.

(** [s in t] for a non-empty [s]. *)
Fixpoint contains (t s : str) : bool :=
  match t with
  | [] => false
  | _ :: t' => startswith t s || contains t' s
  end.

(** [f"{n}"] for an [int]. *)
Definition of_int (n : Z) : str := py (pretty n).

(** [os.path.basename] (posixpath): what follows the last slash. *)
Definition basename (p : str) : str :=
  let i := rfind p 47%N + 1 in
  drop (Z.to_nat i) p.

Definition NL : N := 10%N.

End PyStr.

Import PyStr.

(** ** The chunker: [_split_into_chunks] *)

(** One pass through the body of the [while] loop, from [start]: the chunk
    before [strip] and the value of [end] after the newline adjustment. *)
Definition chunk_at (text : str) (chunk_size start : Z) : str * Z :=
  let end_ := start + chunk_size in
  let chunk := slice text start end_ in
  if end_ <? len text then
    let last_newline := rfind chunk NL in
    if last_newline >? chunk_size / 2
    then (slice chunk 0 last_newline, start + last_newline)
    else (chunk, end_)
  else (chunk, end_).

(** The [while start < len(text)] loop.  [None]: the fuel ran out with the
    loop still running. *)
Fixpoint split_loop (fuel : nat) (text : str) (chunk_size overlap start : Z)
    (chunks : list str) : option (list str) :=
  match fuel with
  | O => None
  | S fuel' =>
      if start <? len text then
        let '(chunk, end_) := chunk_at text chunk_size start in
        split_loop fuel' text chunk_size overlap (end_ - overlap)
                   (chunks ++ [strip chunk])
      else Some chunks
  end.

(** The truth value of a [str] or a [list]. *)
Definition nonempty {A} (c : list A) : bool :=
  match c with [] => false | _ => true end.

(** Lines 143-162; the last line keeps the chunks that are not empty. *)
Definition _split_into_chunks (fuel : nat) (text : str)
    (chunk_size overlap : Z) : option (list str) :=
  List.filter nonempty <$> split_loop fuel text chunk_size overlap 0 [].

(** The two callers pass [chunk_size=3000, overlap=300].  The loop then
    leaves after at most [length text] passes (see [split_loop_total]), so
    the call is run with [S (length text)] units of fuel. *)
Definition chunk_size_3000 : Z := 3000.
Definition overlap_300 : Z := 300.

Definition pipeline_chunks (text : str) : list str :=
  default [] (_split_into_chunks (S (length text)) text
                                 chunk_size_3000 overlap_300).

(** ** The vector store, as far as ingestion sees it *)

(** A metadata value of a chunk: [str] or [int]. *)
Inductive value : Type :=
| VStr (s : str)
| VInt (n : Z).

(** One call of [collection.add(documents=..., metadatas=..., ids=...)].
    The collection is seen through the calls of [add] it received, oldest
    first: a [list add_call]. *)
Record add_call : Type := AddCall {
  documents : list str;
  metadatas : list (gmap string value);
  ids : list str
}.

(** The three parallel lists [all_documents], [all_metadatas], [all_ids]. *)
Record prepared : Type := Prepared {
  all_documents : list str;
  all_metadatas : list (gmap string value);
  all_ids : list str
}.

Definition no_chunks : prepared := Prepared [] [] [].

Definition append3 (p : prepared) (chunk : str) (meta : gmap string value)
    (doc_id : str) : prepared :=
  Prepared (all_documents p ++ [chunk]) (all_metadatas p ++ [meta])
           (all_ids p ++ [doc_id]).

(** ** [_ingest_awesome_format] *)

Definition SEPARATOR : str := py "================".
Definition FILE_PREFIX : str := py "FILE:".

(** Lines 54-69: the header and the body of one block of the bundle, or
    [None] where the loop says [continue]. *)
Definition parse_block (file_idx : nat) (file_block : str)
    : option (str * str) :=
  if nonempty (strip file_block) then
    match split (strip file_block) [NL] with
    | line0 :: (_ :: _) as rest =>
        let file_header := strip line0 in
        let file_name :=
          if startswith file_header FILE_PREFIX
          then strip (replace file_header FILE_PREFIX [])
          else py "section_" ++ of_int (Z.of_nat file_idx) in
        let file_content := join [NL] rest in
        Some (file_name, file_content)
    | _ => None
    end
  else None.

Definition awesome_metadata (file_name original_file : str) (i total : nat)
    : gmap string value :=
  <["source" := VStr file_name]>
  (<["original_file" := VStr original_file]>
  (<["chunk_id" := VInt (Z.of_nat i)]>
  (<["total_chunks" := VInt (Z.of_nat total)]> ∅))).

Definition awesome_id (file_name : str) (i : nat) : str :=
  replace file_name (py "/") (py "_") ++ py "_" ++ of_int (Z.of_nat i).

(** Lines 74-85: [for i, chunk in enumerate(chunks)], from index [i]. *)
Fixpoint awesome_chunks (file_name original_file : str) (total i : nat)
    (chunks : list str) (acc : prepared) : prepared :=
  match chunks with
  | [] => acc
  | chunk :: rest =>
      awesome_chunks file_name original_file total (S i) rest
        (append3 acc chunk (awesome_metadata file_name original_file i total)
                 (awesome_id file_name i))
  end.

(** Lines 53-85: [for file_idx, file_block in enumerate(files)], from index
    [file_idx]. *)
Fixpoint awesome_blocks (original_file : str) (file_idx : nat)
    (files : list str) (acc : prepared) : prepared :=
  match files with
  | [] => acc
  | file_block :: rest =>
      match parse_block file_idx file_block with
      | None => awesome_blocks original_file (S file_idx) rest acc
      | Some (file_name, file_content) =>
          let chunks := pipeline_chunks file_content in
          awesome_blocks original_file (S file_idx) rest
            (awesome_chunks file_name original_file (length chunks) O chunks
                            acc)
      end
  end.

(** [range(0, stop, step)] *)
Definition range_step (stop step : nat) : list nat :=
  (fun k => (k * step)%nat) <$> seq 0 ((stop + step - 1) `div` step)%nat.

Definition batch_size : nat := 100.

Definition batch_at (p : prepared) (i : nat) : add_call :=
  let a := Z.of_nat i in
  let b := Z.of_nat (i + batch_size) in
  AddCall (slice (all_documents p) a b) (slice (all_metadatas p) a b)
          (slice (all_ids p) a b).

(** The numbers printed with each batch. *)
Definition current_batch (i : nat) : nat := (i `div` batch_size + 1)%nat.
Definition total_batches (p : prepared) : Z :=
  (len (all_documents p) - 1) / Z.of_nat batch_size + 1.

(** Lines 94-105: one [add] per start index. *)
Fixpoint add_batches (p : prepared) (starts : list nat) (coll : list add_call)
    : list add_call :=
  match starts with
  | [] => coll
  | i :: rest => add_batches p rest (coll ++ [batch_at p i])
  end.

Definition _ingest_awesome_format (content source_path : str)
    (coll : list add_call) : list add_call * Z :=
  let files := split content SEPARATOR in
  let p := awesome_blocks (basename source_path) O files no_chunks in
  let coll' :=
    if nonempty (all_documents p)
    then add_batches p (range_step (length (all_documents p)) batch_size) coll
    else coll in
  (coll', len (all_documents p)).

(** ** [_ingest_single_file] *)

Definition single_metadata (file_path : str) (i total : nat)
    : gmap string value :=
  <["source" := VStr (basename file_path)]>
  (<["chunk_id" := VInt (Z.of_nat i)]>
  (<["total_chunks" := VInt (Z.of_nat total)]> ∅)).

Definition single_id (file_path : str) (i : nat) : str :=
  replace (basename file_path) (py ".") (py "_") ++ py "_"
  ++ of_int (Z.of_nat i).

(** Lines 120-130. *)
Fixpoint single_chunks (file_path : str) (total i : nat) (chunks : list str)
    (acc : prepared) : prepared :=
  match chunks with
  | [] => acc
  | chunk :: rest =>
      single_chunks file_path total (S i) rest
        (append3 acc chunk (single_metadata file_path i total)
                 (single_id file_path i))
  end.

Definition _ingest_single_file (content file_path : str)
    (coll : list add_call) : list add_call * Z :=
  let chunks := pipeline_chunks content in
  let p := single_chunks file_path (length chunks) O chunks no_chunks in
  let coll' :=
    if nonempty (all_documents p)
    then coll ++ [AddCall (all_documents p) (all_metadatas p) (all_ids p)]
    else coll in
  (coll', len chunks).

(** ** [ingest_file], on the content read from the file *)

Definition ingest_file (content file_path : str) (coll : list add_call)
    : list add_call * Z :=
  if contains content SEPARATOR
  then _ingest_awesome_format content file_path coll
  else _ingest_single_file content file_path coll.

(** ** [search], [generate_answer], [chat] *)

(** One retrieved document: [{"content": ..., "metadata": ...}]. *)
Record source : Type := Source {
  content : str;
  metadata : gmap string value
}.

(** One entry of the [sources] that [chat] returns:
    [{"name": ..., "content": ...}]. *)
Record formatted_source : Type := FormattedSource {
  name : value;
  shown_content : str
}.

(** [f"{v}"] for a metadata value. *)
Definition format_value (v : value) : str :=
  match v with
  | VStr s => s
  | VInt n => of_int n
  end.

Definition UNKNOWN : value := VStr (py "unknown").

(** [doc['metadata'].get('source', 'unknown')] *)
Definition source_name (doc : source) : value :=
  default UNKNOWN (metadata doc !! "source").

(** The element of the list comprehension of line 184. *)
Definition context_entry (doc : source) : str :=
  py "Source: " ++ format_value (source_name doc) ++ [NL] ++ content doc.

Definition build_context (context_docs : list source) : str :=
  join [NL; NL] (context_entry <$> context_docs).

Definition build_prompt (question context : str) : str :=
  py "Tu es Deepy, un assistant expert en architecture logicielle et design patterns."
  ++ [NL; NL] ++ py "Contexte pertinent:" ++ [NL] ++ context
  ++ [NL; NL] ++ py "Question: " ++ question ++ [NL; NL]
  ++ py "R" ++ [233%N] ++ py "ponds de mani" ++ [232%N]
  ++ py "re claire et d" ++ [233%N] ++ py "taill" ++ [233%N]
  ++ py "e en te basant sur le contexte fourni. Si le contexte ne contient pas l'information, dis-le clairement.".

Section Retrieval.

(** The vector store's [query(query_texts=[q], n_results=n)]: the columns
    [results['documents'][0]] and [results['metadatas'][0]]. *)
Variable query : str -> Z -> list str * list (gmap string value).

(** The text of the model's response to a prompt. *)
Variable generate_content : str -> str.

(** Lines 172-176: [for i in range(len(docs))].  [None] is the
    [IndexError] of a metadata column shorter than the document column. *)
Fixpoint search_rows (docs : list str) (metas : list (gmap string value))
    (indices : list nat) (sources : list source) : option (list source) :=
  match indices with
  | [] => Some sources
  | i :: rest =>
      match docs !! i, metas !! i with
      | Some d, Some m => search_rows docs metas rest (sources ++ [Source d m])
      | _, _ => None
      end
  end.

Definition search (q : str) (n_results : Z) : option (list source) :=
  let '(docs, metas) := query q n_results in
  search_rows docs metas (seq 0 (length docs)) [].

Definition generate_answer (question : str) (context_docs : list source)
    : str :=
  generate_content (build_prompt question (build_context context_docs)).

Definition format_source (src : source) : formatted_source :=
  FormattedSource (source_name src) (content src).

Definition chat (question : str) : option (str * list formatted_source) :=
  sources ← search question 5;
  let answer := generate_answer question sources in
  Some (answer, format_source <$> sources).

End Retrieval.

(** ** Notions used in the statements *)

(** [last_at c s k]: position [k] holds the last [c] of [s]. *)
Definition last_at (c : N) (s : str) (k : nat) : Prop :=
  s !! k = Some c /\ forall j, (k < j)%nat -> s !! j <> Some c.

(** The text on which the loop stalls with [chunk_size=4, overlap=3]: the
    newline sits at index 3, so [end - overlap] is again 0. *)
Definition stall_text : str := py "aaa" ++ [NL] ++ py "aaaa".

(** Two runs of prepared chunks, one after the other. *)
Definition papp (p q : prepared) : prepared :=
  Prepared (all_documents p ++ all_documents q)
           (all_metadatas p ++ all_metadatas q)
           (all_ids p ++ all_ids q).

(** What one logical document of a bundle contributes: its chunks, each with
    the document's name as [source] and its index as [chunk_id]. *)
Definition awesome_group (file_name original_file : str) (chunks : list str)
    : prepared :=
  Prepared chunks
    (imap (fun i _ => awesome_metadata file_name original_file i
                                       (length chunks)) chunks)
    (imap (fun i _ => awesome_id file_name i) chunks).

(** What a single file contributes. *)
Definition single_group (file_path : str) (chunks : list str) : prepared :=
  Prepared chunks
    (imap (fun i _ => single_metadata file_path i (length chunks)) chunks)
    (imap (fun i _ => single_id file_path i) chunks).

(** The three lists of a [prepared] have one length. *)
Definition aligned (p : prepared) : Prop :=
  length (all_metadatas p) = length (all_documents p)
  /\ length (all_ids p) = length (all_documents p).

(** The contribution of one block of the bundle: nothing for a block the
    loop skips, the group of its chunks otherwise. *)
Definition block_group (original_file : str) (file_idx : nat)
    (file_block : str) : prepared :=
  match parse_block file_idx file_block with
  | None => no_chunks
  | Some (file_name, file_content) =>
      awesome_group file_name original_file (pipeline_chunks file_content)
  end.

(** The groups of all the blocks, in order. *)
Definition pconcat (groups : list prepared) : prepared :=
  foldr papp no_chunks groups.

(** The calls of [add] made by one ingestion, and the columns they carry,
    batch after batch. *)
Definition submitted (content file_path : str) : list add_call :=
  (ingest_file content file_path []).1.

Definition submitted_documents (content file_path : str) : list str :=
  concat (documents <$> submitted content file_path).

Definition submitted_metadatas (content file_path : str)
    : list (gmap string value) :=
  concat (metadatas <$> submitted content file_path).

Definition submitted_ids (content file_path : str) : list str :=
  concat (ids <$> submitted content file_path).

(** What the bundle loop prepares for a content. *)
Definition awesome_prepared (content source_path : str) : prepared :=
  awesome_blocks (basename source_path) O (split content SEPARATOR) no_chunks.

(** The chunks that an ingestion parses out of a content, as the
    description has them: for a bundle, block after block of the raw split,
    the chunks of the body of every block that is kept; for a single file,
    the chunks of the content. *)
Definition parsed_chunks (content : str) : list str :=
  if contains content SEPARATOR
  then concat (imap (fun file_idx file_block =>
                       match parse_block file_idx file_block with
                       | Some (_, file_content) =>
                           pipeline_chunks file_content
                       | None => []
                       end)
                    (split content SEPARATOR))
  else pipeline_chunks content.

(** The identifier as the description has it: the name with every [old]
    replaced by [_], then [_] and the index of the chunk. *)
Definition described_id (name old : str) (chunk_index : nat) : str :=
  replace name old (py "_") ++ py "_" ++ of_int (Z.of_nat chunk_index).

(** The described identifiers of the parsed chunks, in the order of
    [parsed_chunks]: in a bundle the name is the name of the chunk's block
    and the index counts within the block; for a single file the name is
    the base name of the path. *)
Definition described_ids (content file_path : str) : list str :=
  if contains content SEPARATOR
  then concat (imap (fun file_idx file_block =>
                       match parse_block file_idx file_block with
                       | Some (file_name, file_content) =>
                           imap (fun i _ => described_id file_name (py "/") i)
                                (pipeline_chunks file_content)
                       | None => []
                       end)
                    (split content SEPARATOR))
  else imap (fun i _ => described_id (basename file_path) (py ".") i)
            (pipeline_chunks content).

(** A call of [add] that carries at least one chunk, with one metadata
    record and one identifier per chunk. *)
Definition call_ok (c : add_call) : Prop :=
  documents c <> []
  /\ length (metadatas c) = length (documents c)
  /\ length (ids c) = length (documents c).

(** A file of 270001 letters: no separator, and 101 chunks. *)
Definition long_text : str := replicate (Z.to_nat 270001) 97%N.

(** An identifier and a metadata record that go together in a bundle: the
    identifier is the record's [source] with [/] replaced by [_], then [_]
    and the record's [chunk_id]. *)
Definition bundle_id_row (doc_id : str) (meta : gmap string value) : Prop :=
  exists (file_name : str) (chunk_index : nat),
    meta !! "source" = Some (VStr file_name)
    /\ meta !! "chunk_id" = Some (VInt (Z.of_nat chunk_index))
    /\ doc_id = replace file_name (py "/") (py "_") ++ py "_"
                ++ of_int (Z.of_nat chunk_index).

(** The same for a single file: the [source] is the base name of the path,
    and it is [.] that is replaced. *)
Definition single_id_row (file_path doc_id : str)
    (meta : gmap string value) : Prop :=
  exists chunk_index : nat,
    meta !! "source" = Some (VStr (basename file_path))
    /\ meta !! "chunk_id" = Some (VInt (Z.of_nat chunk_index))
    /\ doc_id = replace (basename file_path) (py ".") (py "_") ++ py "_"
                ++ of_int (Z.of_nat chunk_index).

(** ** Notions used in the further properties *)

(** [c] occurs in [text] as a run of consecutive characters. *)
Definition substring (c text : str) : Prop :=
  exists pre post : str, text = pre ++ c ++ post.

(** The least distance by which one pass moves [start] forward when
    [overlap <= chunk_size // 2]: [chunk_size - overlap] without a newline
    cut, at least [chunk_size // 2 + 1 - overlap] with one. *)
Definition min_advance (chunk_size overlap : Z) : Z :=
  Z.min (chunk_size - overlap) (chunk_size / 2 + 1 - overlap).

(** What the metadata record of a bundle chunk is: for some kept block of
    the content, with its name and its body, and some index [i] of a chunk
    of that body, the record with the four keys [source], [original_file],
    [chunk_id] and [total_chunks]. *)
Definition bundle_record (content original_file : str)
    (m : gmap string value) : Prop :=
  exists (file_idx : nat) (file_block file_name file_content : str)
         (i : nat),
    split content SEPARATOR !! file_idx = Some file_block
    /\ parse_block file_idx file_block = Some (file_name, file_content)
    /\ (i < length (pipeline_chunks file_content))%nat
    /\ m = <["source" := VStr file_name]>
           (<["original_file" := VStr original_file]>
           (<["chunk_id" := VInt (Z.of_nat i)]>
           (<["total_chunks"
              := VInt (Z.of_nat (length (pipeline_chunks file_content)))]>
            ∅))).

(** ** Paths *)

(** [s.endswith(suffix)] *)
Definition endswith (s suffix : str) : bool :=
  startswith (reverse s) (reverse suffix).

(** [os.path.join(a, b)] (posixpath): an absolute [b] replaces [a]; a
    slash is put between the two unless [a] is empty or ends with one. *)
Definition path_join (a b : str) : str :=
  if startswith b (py "/") then b
  else if negb (nonempty a) || endswith a (py "/") then a ++ b
  else a ++ py "/" ++ b.

(** ** [ingest_file] with the read of the file, and the two ingestion
    endpoints of main.py *)

(** What an endpoint records for one file: the count returned by
    [ingest_file], or [{"error": str(e)}]. *)
Inductive detail : Type :=
| Count (n : Z)
| ErrorDetail (message : str).

(** The answers of [/ingest]: [{"status": "error", "message": ...}] or
    [{"status": "success", "total_documents_indexed": ..., "details": ...}]. *)
Inductive ingest_response : Type :=
| StatusError (message : str)
| StatusSuccess (total : Z) (details : gmap (list N) detail).

Definition DATA_DIR : str := py "../data".
Definition TEMP_DIR : str := py "/tmp/deepy_uploads".

Section Files.

(** [open(path, 'r', encoding='utf-8').read()]: the text of the file, or
    [None] when opening or decoding raises. *)
Variable read_text : str -> option str.

(** engine.py, lines 31-41. [None]: the exception of the read goes up. *)
Definition ingest_file_at (file_path : str) (coll : list add_call)
    : option (list add_call * Z) :=
  match read_text file_path with
  | Some content => Some (ingest_file content file_path coll)
  | None => None
  end.

(** main.py, lines 60-65: the loop over [os.listdir(data_dir)].  The second
    component is [None] when [ingest_file] raised: nothing catches it. *)
Fixpoint start_ingest_loop (filenames : list str) (total_files : Z)
    (results : gmap (list N) detail) (coll : list add_call)
    : list add_call * option (Z * gmap (list N) detail) :=
  match filenames with
  | [] => (coll, Some (total_files, results))
  | filename :: rest =>
      if endswith filename (py ".txt") then
        match ingest_file_at (path_join DATA_DIR filename) coll with
        | Some (coll', count) =>
            start_ingest_loop rest (total_files + count)
                              (<[filename := Count count]> results) coll'
        | None => (coll, None)
        end
      else start_ingest_loop rest total_files results coll
  end.

(** main.py, lines 50-71. [listing] is [None] when the data directory does
    not exist, and [os.listdir(data_dir)] otherwise. *)
Definition start_ingest (listing : option (list str))
    (coll : list add_call) : list add_call * option ingest_response :=
  match listing with
  | None =>
      (coll, Some (StatusError (py "Data directory " ++ DATA_DIR
                                ++ py " not found")))
  | Some filenames =>
      match start_ingest_loop filenames 0 ∅ coll with
      | (coll', Some (total_files, results)) =>
          (coll', Some (StatusSuccess total_files results))
      | (coll', None) => (coll', None)
      end
  end.

End Files.

(** One uploaded file: its [filename] and the bytes that [file.read()]
    gives. *)
Record upload (B : Type) : Type := Upload {
  filename : str;
  data : B
}.

Arguments Upload {B} _ _.
Arguments filename {B} _.
Arguments data {B} _.

Section Uploads.

Variable B : Type.

(** main.py, lines 93-94, for the upload number [k] of the request:
    [open(temp_path, 'wb')] and [f.write(content)]. [Some message] when one
    of them raises, [message] being the [str(e)] of the exception. *)
Variable write_file : nat -> str -> B -> option str.

(** engine.py, lines 34-35, on the file written for the upload number [k]:
    the text that [open(file_path, 'r', encoding='utf-8')] and [f.read()]
    give ([inr]), or the message of the exception ([inl]). *)
Variable read_back : nat -> str -> B -> str + str.

(** [collection.add] on a store that has received the calls [coll]:
    [Some message] when it raises. *)
Variable add_error : list add_call -> add_call -> option str.

(** main.py, line 102, for the upload number [k]: [os.remove(temp_path)].
    [Some message] when it raises. *)
Variable remove_file : nat -> str -> option str.

(** engine.py, lines 94-105, on a store that may raise: the calls made
    before the one that raises stay in the store. *)
Fixpoint add_batches_or_raise (p : prepared) (starts : list nat)
    (coll : list add_call) : list add_call * option str :=
  match starts with
  | [] => (coll, None)
  | i :: rest =>
      match add_error coll (batch_at p i) with
      | Some message => (coll, Some message)
      | None => add_batches_or_raise p rest (coll ++ [batch_at p i])
      end
  end.

(** engine.py, lines 43-108, on a store that may raise: the store after
    the call, and the message of the exception or the returned count. *)
Definition _ingest_awesome_format_or_raise (content source_path : str)
    (coll : list add_call) : list add_call * (str + Z) :=
  let files := split content SEPARATOR in
  let p := awesome_blocks (basename source_path) O files no_chunks in
  if nonempty (all_documents p) then
    match add_batches_or_raise
            p (range_step (length (all_documents p)) batch_size) coll with
    | (coll', Some message) => (coll', inl message)
    | (coll', None) => (coll', inr (len (all_documents p)))
    end
  else (coll, inr (len (all_documents p))).

(** engine.py, lines 110-141, on a store that may raise. *)
Definition _ingest_single_file_or_raise (content file_path : str)
    (coll : list add_call) : list add_call * (str + Z) :=
  let chunks := pipeline_chunks content in
  let p := single_chunks file_path (length chunks) O chunks no_chunks in
  if nonempty (all_documents p) then
    let call := AddCall (all_documents p) (all_metadatas p) (all_ids p) in
    match add_error coll call with
    | Some message => (coll, inl message)
    | None => (coll ++ [call], inr (len chunks))
    end
  else (coll, inr (len chunks)).

(** engine.py, lines 36-41, on the content read from the file. *)
Definition ingest_file_or_raise (content file_path : str)
    (coll : list add_call) : list add_call * (str + Z) :=
  if contains content SEPARATOR
  then _ingest_awesome_format_or_raise content file_path coll
  else _ingest_single_file_or_raise content file_path coll.

(** main.py, lines 88-105: the [try] block for the upload number [k] and
    its handler. Whatever raises inside the [try] is caught and recorded
    under the file name; what was added to the store, to [results] or to
    [total_indexed] before stays. *)
Definition ingest_upload (k : nat) (file : upload B) (total_indexed : Z)
    (results : gmap (list N) detail) (coll : list add_call)
    : list add_call * (Z * gmap (list N) detail) :=
  let temp_path := path_join TEMP_DIR (filename file) in
  match write_file k temp_path (data file) with
  | Some message =>
      (coll, (total_indexed,
              <[filename file := ErrorDetail message]> results))
  | None =>
      match read_back k temp_path (data file) with
      | inl message =>
          (coll, (total_indexed,
                  <[filename file := ErrorDetail message]> results))
      | inr content =>
          match ingest_file_or_raise content temp_path coll with
          | (coll', inl message) =>
              (coll', (total_indexed,
                       <[filename file := ErrorDetail message]> results))
          | (coll', inr count) =>
              let results' := <[filename file := Count count]> results in
              match remove_file k temp_path with
              | Some message =>
                  (coll', (total_indexed + count,
                           <[filename file := ErrorDetail message]> results'))
              | None => (coll', (total_indexed + count, results'))
              end
          end
      end
  end.

(** main.py, lines 87-105: [for file in files], from the upload number
    [k]. *)
Fixpoint ingest_files_loop (files : list (upload B)) (k : nat)
    (total_indexed : Z) (results : gmap (list N) detail)
    (coll : list add_call)
    : list add_call * (Z * gmap (list N) detail) :=
  match files with
  | [] => (coll, (total_indexed, results))
  | file :: rest =>
      let '(coll', (total_indexed', results')) :=
        ingest_upload k file total_indexed results coll in
      ingest_files_loop rest (S k) total_indexed' results' coll'
  end.

(** main.py, lines 77-111: the status is always ["success"]. *)
Definition ingest_files (files : list (upload B)) (coll : list add_call)
    : list add_call * ingest_response :=
  let '(coll', (total_indexed, results)) :=
    ingest_files_loop files O 0 ∅ coll in
  (coll', StatusSuccess total_indexed results).

End Uploads.

(** The number of chunks carried by a run of calls of [add]. *)
Definition chunks_in (calls : list add_call) : Z :=
  len (concat (documents <$> calls)).

(** The calls of [add] that the upload number [k] gives rise to on a
    store that does not raise: those of the ingestion of its text when the
    file can be written and read back, none otherwise. *)
Definition upload_calls {B : Type} (write_file : nat -> str -> B -> option str)
    (read_back : nat -> str -> B -> str + str) (k : nat) (file : upload B)
    : list add_call :=
  let temp_path := path_join TEMP_DIR (filename file) in
  match write_file k temp_path (data file),
        read_back k temp_path (data file) with
  | None, inr content => submitted content temp_path
  | _, _ => []
  end.

(** What [/ingest-files] records for the upload number [k] on a store that
    does not raise: the message of the first step that raises, writing,
    reading back or removing, and the number of its chunks when none
    does. *)
Definition upload_detail {B : Type}
    (write_file : nat -> str -> B -> option str)
    (read_back : nat -> str -> B -> str + str)
    (remove_file : nat -> str -> option str) (k : nat) (file : upload B)
    : detail :=
  let temp_path := path_join TEMP_DIR (filename file) in
  match write_file k temp_path (data file) with
  | Some message => ErrorDetail message
  | None =>
      match read_back k temp_path (data file) with
      | inl message => ErrorDetail message
      | inr content =>
          match remove_file k temp_path with
          | Some message => ErrorDetail message
          | None => Count (len (parsed_chunks content))
          end
      end
  end.

(** The uploads of a request that carry the file name [name], each with its
    number. *)
Definition uploads_named {B : Type} (name : str) (files : list (upload B))
    : list (nat * upload B) :=
  List.filter (fun kf : nat * upload B => bool_decide (filename kf.2 = name))
              (imap pair files).

(** ** schemas.py: the registry and [get_schema] *)

(** The exceptions that matter here, with what [str(e)] needs. *)
Inductive exn : Type :=
| ValueError (message : str)
| HTTPException (status_code : Z) (detail_text : str)
| OtherError (message : str).

Inductive schema_class : Type :=
| Recipe
| Invoice
| Feedback
| DesignPattern
| PDFSummary.

(** A [dict] written as a literal, in insertion order. *)
Definition SCHEMA_REGISTRY : list (str * schema_class) :=
  [(py "recipe", Recipe); (py "invoice", Invoice); (py "feedback", Feedback);
   (py "design_pattern", DesignPattern); (py "pdf_summary", PDFSummary)].

(** [d[key]], or [None] when [key not in d]. *)
Fixpoint dict_get {V : Type} (d : list (str * V)) (key : str) : option V :=
  match d with
  | [] => None
  | (k, v) :: rest => if bool_decide (k = key) then Some v else dict_get rest key
  end.

(** [d.keys()] *)
Definition dict_keys {V : Type} (d : list (str * V)) : list str := d.*1.

(** schemas.py, lines 114-121. *)
Definition get_schema (schema_type : str) : exn + schema_class :=
  match dict_get SCHEMA_REGISTRY schema_type with
  | None =>
      inl (ValueError (py "Unknown schema type: " ++ schema_type ++ py ". "
                       ++ py "Available types: "
                       ++ join (py ", ") (dict_keys SCHEMA_REGISTRY)))
  | Some schema => inr schema
  end.

(** The names of the fields each class declares ([model_fields.keys()]). *)
Definition model_fields (schema : schema_class) : list str :=
  match schema with
  | Recipe =>
      [py "recipe_name"; py "prep_time_minutes"; py "ingredients";
       py "instructions"]
  | Invoice =>
      [py "invoice_number"; py "date"; py "vendor_name"; py "customer_name";
       py "line_items"; py "subtotal"; py "tax"; py "total"]
  | Feedback => [py "sentiment"; py "category"; py "summary"; py "priority"]
  | DesignPattern =>
      [py "pattern_name"; py "category"; py "description"; py "use_cases";
       py "advantages"; py "disadvantages"; py "examples"]
  | PDFSummary =>
      [py "title"; py "summary"; py "key_points"; py "page_count";
       py "document_type"]
  end.

(** The docstring of each class. *)
Definition schema_doc (schema : schema_class) : str :=
  match schema with
  | Recipe => py "A cooking recipe with ingredients and instructions."
  | Invoice => py "An invoice document."
  | Feedback => py "User feedback classification."
  | DesignPattern => py "A software design pattern."
  | PDFSummary => py "Summary of a PDF document."
  end.

(** main.py, lines 192-204: the list of names, and for each name its
    description and its fields. *)
Definition list_schemas : list str * list (str * (str * list str)) :=
  (dict_keys SCHEMA_REGISTRY,
   (fun '(name, schema) =>
      (name,
       (if nonempty (schema_doc schema) then schema_doc schema
        else py "No description",
        model_fields schema)))
   <$> SCHEMA_REGISTRY).

(** ** The endpoints of main.py that check their request *)

(** The schema handed to the engine: the request's own JSON schema or a
    class of the registry. *)
Inductive schema_arg (J : Type) : Type :=
| CustomSchema (d : list (str * J))
| ClassSchema (c : schema_class).

Arguments CustomSchema {J} _.
Arguments ClassSchema {J} _.

(** [StructuredOutputRequest] *)
Record structured_request (J : Type) : Type := StructuredRequest {
  request_text : str;
  schema_type : str;
  custom_schema : option (list (str * J));
  request_prompt : option str
}.

Arguments request_text {J} _.
Arguments schema_type {J} _.
Arguments custom_schema {J} _.
Arguments request_prompt {J} _.

Section Endpoints.

(** [str(e)] for an [HTTPException], left to the web framework. *)
Variable http_str : Z -> str -> str.

Definition exn_str (e : exn) : str :=
  match e with
  | ValueError message => message
  | HTTPException status_code detail_text => http_str status_code detail_text
  | OtherError message => message
  end.

(** [except Exception as e: raise HTTPException(status_code=500,
    detail=str(e))] around a body. *)
Definition reraise_500 {R : Type} (body : exn + R) : exn + R :=
  match body with
  | inr r => inr r
  | inl e => inl (HTTPException 500 (exn_str e))
  end.

(** main.py, lines 236-244, over [engine.analyze_urls]. *)
Definition analyze_urls {R : Type}
    (engine_analyze_urls : str -> list str -> exn + R)
    (prompt : str) (urls : list str) : exn + R :=
  reraise_500
    (if 20 <? len urls
     then inl (HTTPException 400 (py "Maximum 20 URLs allowed"))
     else engine_analyze_urls prompt urls).

(** main.py, lines 159-189, over [engine.generate_structured_output].  An
    absent or empty [custom_schema] is falsy. *)
Definition extract_structured {J D : Type}
    (generate_structured_output :
       str -> schema_arg J -> option str -> exn + D)
    (request : structured_request J) : exn + (D * str) :=
  reraise_500
    (let schema :=
       match custom_schema request with
       | Some ((_ :: _) as d) => inr (CustomSchema d)
       | _ =>
           match get_schema (schema_type request) with
           | inr c => inr (ClassSchema c)
           | inl (ValueError message) => inl (HTTPException 400 message)
           | inl e => inl e
           end
       end in
     match schema with
     | inl e => inl e
     | inr schema =>
         match generate_structured_output (request_text request) schema
                                          (request_prompt request) with
         | inr data => inr (data, schema_type request)
         | inl e => inl e
         end
     end).

(** main.py, lines 264-296, over [engine.upload_to_file_search]; the engine
    gets the temporary path, the store and [display_name or filename]. *)
Definition upload_to_file_search_endpoint {R : Type}
    (engine_upload : str -> str -> str -> exn + R)
    (file_name store_name : str) (display_name : option str) : exn + R :=
  reraise_500
    (if nonempty store_name
     then engine_upload (path_join (py "/tmp/deepy_file_search") file_name)
                        store_name
                        (match display_name with
                         | Some ((_ :: _) as d) => d
                         | _ => file_name
                         end)
     else inl (HTTPException 400 (py "store_name is required"))).

End Endpoints.

(** ** [execute_code]: the parts of the response *)

(** An attribute that [hasattr] may not find. *)
Inductive attr (A : Type) : Type :=
| NoAttr
| HasAttr (a : A).

Arguments NoAttr {A}.
Arguments HasAttr {A} _.

(** [part.executable_code] and [part.code_execution_result], over the
    values [V] that the response carries. *)
Record code_object (V : Type) : Type := CodeObject {
  language : attr V;
  code : V
}.

Record result_object (V : Type) : Type := ResultObject {
  outcome : attr V;
  output : V
}.

Arguments language {V} _.
Arguments code {V} _.
Arguments outcome {V} _.
Arguments output {V} _.

Record part (V : Type) : Type := Part {
  part_text : option V;
  executable_code : attr (option (code_object V));
  code_execution_result : attr (option (result_object V))
}.

Arguments part_text {V} _.
Arguments executable_code {V} _.
Arguments code_execution_result {V} _.

(** The [result] dict: texts, (language, code) pairs, (outcome, output)
    pairs. *)
Record execution_result (V : Type) : Type := ExecutionResult {
  text_parts : list V;
  code_parts : list (V * V);
  output_parts : list (V * V)
}.

Arguments ExecutionResult {V} _ _ _.
Arguments text_parts {V} _.
Arguments code_parts {V} _.
Arguments output_parts {V} _.

Section CodeExecution.

Variable V : Type.

(** A [str] literal of the source as a value. *)
Variable literal : str -> V.

(** engine.py, lines 374-386: the loop over the parts. *)
Fixpoint execute_code_parts (parts : list (part V))
    (result : execution_result V) : execution_result V :=
  match parts with
  | [] => result
  | p :: rest =>
      let result1 :=
        match part_text p with
        | Some t =>
            ExecutionResult (text_parts result ++ [t]) (code_parts result)
                            (output_parts result)
        | None => result
        end in
      let result2 :=
        match executable_code p with
        | HasAttr (Some ec) =>
            ExecutionResult
              (text_parts result1)
              (code_parts result1
               ++ [(match language ec with
                    | HasAttr l => l
                    | NoAttr => literal (py "PYTHON")
                    end,
                    code ec)])
              (output_parts result1)
        | _ => result1
        end in
      let result3 :=
        match code_execution_result p with
        | HasAttr (Some r) =>
            ExecutionResult
              (text_parts result2) (code_parts result2)
              (output_parts result2
               ++ [(match outcome r with
                    | HasAttr o => o
                    | NoAttr => literal (py "OUTCOME_OK")
                    end,
                    output r)])
        | _ => result2
        end in
      execute_code_parts rest result3
  end.

(** engine.py, lines 367-389, on [response.candidates], each candidate
    given by its parts. [None]: the [IndexError] of [candidates[0]]. *)
Definition execute_code (candidates : list (list (part V)))
    : option (execution_result V) :=
  match candidates with
  | [] => None
  | parts :: _ => Some (execute_code_parts parts (ExecutionResult [] [] []))
  end.

End CodeExecution.

(** ** [upload_to_file_search]: waiting for the operation *)

Record operation : Type := Operation {
  done : bool;
  operation_name : str
}.

Section FileSearchUpload.

(** [client.file_search_stores.upload_to_file_search_store(file=...,
    file_search_store_name=..., config=...)], the config being empty or
    holding the display name. *)
Variable upload_to_store : str -> str -> option str -> operation.

(** The answer of the call number [k] of [client.operations.get]. *)
Variable get_operation : nat -> operation -> operation.

(** engine.py, lines 476-478; [polls] counts the passes, each of which
    sleeps 2 seconds. [None]: still waiting when the fuel runs out. *)
Fixpoint wait_until_done (fuel polls : nat) (op : operation)
    : option (nat * operation) :=
  match fuel with
  | O => None
  | S fuel' =>
      if done op then Some (polls, op)
      else wait_until_done fuel' (S polls) (get_operation polls op)
  end.

(** engine.py, lines 450-481: the number of sleeps and the returned dict
    ([status], [operation_name]). *)
Definition upload_to_file_search (fuel : nat) (file_path store_name : str)
    (display_name : option str) : option (nat * (str * str)) :=
  let config :=
    match display_name with
    | Some ((_ :: _) as d) => Some d
    | _ => None
    end in
  match wait_until_done fuel O
          (upload_to_store file_path store_name config) with
  | Some (polls, op) => Some (polls, (py "completed", operation_name op))
  | None => None
  end.

(** The operation as it is after [k] polls. *)
Fixpoint operation_after (first : operation) (k : nat) : operation :=
  match k with
  | O => first
  | S k' => get_operation k' (operation_after first k')
  end.

End FileSearchUpload.

(** * Properties *)

(** ** Slices, [strip] and [rfind] *)

Section StrFacts.

Lemma len_nonneg {A} (s : list A) : 0 <= len s.
Proof. unfold len. lia. Qed.

Lemma clamp_bounds n i : 0 <= n -> 0 <= clamp n i <= n.
Proof. intros Hn. unfold clamp. destruct (i <? 0) eqn:E; lia. Qed.

(** A slice [s[a:a+k]] never holds more than [k] items, whatever the sign
    of [a]. *)
Lemma slice_len_le {A} (s : list A) a b :
  a <= b -> len (slice s a b) <= b - a.
Proof.
  intros Hab. unfold slice, len. rewrite length_take.
  pose proof (len_nonneg s) as Hs. unfold len in Hs.
  unfold clamp. destruct (a <? 0) eqn:Ea, (b <? 0) eqn:Eb; lia.
Qed.

(** For indices inside the list the slice is [take] after [drop]. *)
Lemma slice_inside {A} (s : list A) a b :
  0 <= a -> 0 <= b ->
  slice s a b = take (Z.to_nat (Z.min b (len s) - Z.min a (len s)))
                     (drop (Z.to_nat (Z.min a (len s))) s).
Proof.
  intros Ha Hb. unfold slice, clamp.
  destruct (a <? 0) eqn:Ea; [lia|]. destruct (b <? 0) eqn:Eb; [lia|].
  reflexivity.
Qed.

Lemma slice_whole {A} (s : list A) b : len s <= b -> slice s 0 b = s.
Proof.
  intros Hb. pose proof (len_nonneg s) as Hs.
  rewrite slice_inside by lia.
  replace (Z.min 0 (len s)) with 0 by lia. rewrite drop_0.
  apply take_ge. unfold len in *. lia.
Qed.

Lemma slice_prefix {A} (s : list A) b :
  0 <= b -> slice s 0 b = take (Z.to_nat b) s.
Proof.
  intros Hb. pose proof (len_nonneg s) as Hs.
  rewrite slice_inside by lia.
  replace (Z.min 0 (len s)) with 0 by lia. rewrite drop_0, Z.sub_0_r.
  destruct (Z.le_gt_cases b (len s)) as [Hle|Hgt].
  - now rewrite Z.min_l.
  - rewrite Z.min_r by lia. rewrite !take_ge; unfold len in *; auto; lia.
Qed.

Lemma lstrip_length s : (length (lstrip s) <= length s)%nat.
Proof.
  induction s as [|c s IH]; simpl; [lia|].
  destruct (is_space c); simpl; lia.
Qed.

Lemma rstrip_length s : (length (rstrip s) <= length s)%nat.
Proof.
  unfold rstrip. rewrite length_reverse.
  etransitivity; [apply lstrip_length|]. now rewrite length_reverse.
Qed.

Lemma strip_length s : (length (strip s) <= length s)%nat.
Proof.
  unfold strip. etransitivity; [apply rstrip_length | apply lstrip_length].
Qed.

Lemma strip_len s : len (strip s) <= len s.
Proof. unfold len. pose proof (strip_length s). lia. Qed.

(** [rfind] answers -1 or an index of the string. *)
Lemma rfind_from_range c s i :
  rfind_from c s i = -1
  \/ i <= rfind_from c s i < i + len s.
Proof.
  revert i. induction s as [|x s IH]; intros i; simpl; [now left|].
  unfold len in *. simpl length.
  destruct (IH (i + 1)) as [E|E].
  - rewrite E. simpl. destruct (x =? c)%N; [right; lia | now left].
  - destruct (0 <=? rfind_from c s (i + 1)) eqn:E0.
    + right. lia.
    + destruct (x =? c)%N; [right; lia | now left].
Qed.

Lemma rfind_range s c : -1 <= rfind s c < len s.
Proof.
  unfold rfind. pose proof (len_nonneg s).
  destruct (rfind_from_range c s 0) as [E|E]; lia.
Qed.

End StrFacts.

Section RfindFacts.

Lemma rfind_from_absent c s i :
  (forall j, s !! j <> Some c) -> rfind_from c s i = -1.
Proof.
  revert i. induction s as [|x s IH]; intros i Hno; simpl; [reflexivity|].
  rewrite IH by (intros j; apply (Hno (S j))). simpl.
  destruct (N.eqb_spec x c) as [->|Hne]; [|reflexivity].
  now destruct (Hno O).
Qed.

Lemma rfind_from_last c s i k :
  0 <= i -> last_at c s k -> rfind_from c s i = i + Z.of_nat k.
Proof.
  revert i k. induction s as [|x s IH]; intros i k Hi [Hk Hlast].
  - discriminate.
  - simpl. destruct k as [|k].
    + injection Hk as ->.
      rewrite rfind_from_absent.
      * simpl. rewrite N.eqb_refl. lia.
      * intros j. apply (Hlast (S j)). lia.
    + rewrite (IH (i + 1) k); [| lia |].
      * destruct (Z.leb_spec 0 (i + 1 + Z.of_nat k)); lia.
      * split; [exact Hk|]. intros j Hj. apply (Hlast (S j)). lia.
Qed.

Lemma rfind_last s c k : last_at c s k -> rfind s c = Z.of_nat k.
Proof. intros H. unfold rfind. now rewrite (rfind_from_last c s 0 k). Qed.

Lemma rfind_from_negative c s i :
  0 <= i -> rfind_from c s i < 0 -> forall j, s !! j <> Some c.
Proof.
  revert i. induction s as [|x s IH]; intros i Hi Hr j; [discriminate|].
  simpl in Hr.
  destruct (Z.leb_spec 0 (rfind_from c s (i + 1))) as [Hge|Hlt]; [lia|].
  destruct (N.eqb_spec x c) as [->|Hne]; [lia|].
  destruct j as [|j]; simpl; [congruence|].
  apply (IH (i + 1)); lia.
Qed.

Lemma rfind_from_found c s i :
  0 <= i -> 0 <= rfind_from c s i ->
  exists k, rfind_from c s i = i + Z.of_nat k /\ last_at c s k.
Proof.
  revert i. induction s as [|x s IH]; intros i Hi Hr; simpl in *; [lia|].
  destruct (Z.leb_spec 0 (rfind_from c s (i + 1))) as [Hge|Hlt].
  - destruct (IH (i + 1)) as (k & Ek & Hk & Hlast); [lia | lia |].
    exists (S k). split; [lia|]. split; [exact Hk|].
    intros [|j] Hj; [lia|]. apply Hlast. lia.
  - destruct (N.eqb_spec x c) as [->|Hne]; [|lia].
    exists O. split; [lia|]. split; [reflexivity|].
    intros [|j] Hj; [lia|]. simpl.
    apply (rfind_from_negative c s (i + 1)); lia.
Qed.

Lemma rfind_found s c :
  0 <= rfind s c -> last_at c s (Z.to_nat (rfind s c)).
Proof.
  intros H. unfold rfind in *.
  destruct (rfind_from_found c s 0 ltac:(lia) H) as (k & E & Hk).
  rewrite E. now replace (Z.to_nat (0 + Z.of_nat k)) with k by lia.
Qed.

End RfindFacts.

(** ** The chunker *)

Section ChunkerFacts.

Variable text : str.
Variables chunk_size overlap : Z.

Lemma half_lt : 0 < chunk_size -> chunk_size / 2 < chunk_size.
Proof. intros H. apply Z.div_lt_upper_bound; lia. Qed.

Lemma half_nonneg : 0 <= chunk_size -> 0 <= chunk_size / 2.
Proof. intros H. apply Z.div_pos; lia. Qed.

(** The chunk of one pass is a slice of [chunk_size] characters, possibly
    cut shorter. *)
Lemma chunk_at_len start :
  0 <= chunk_size -> len (chunk_at text chunk_size start).1 <= chunk_size.
Proof.
  intros Hcs. unfold chunk_at.
  pose proof (slice_len_le text start (start + chunk_size) ltac:(lia)) as Hs.
  destruct (start + chunk_size <? len text); [|simpl; lia].
  destruct (Z.gtb_spec (rfind (slice text start (start + chunk_size)) NL)
                       (chunk_size / 2)) as [Hgt|Hle]; [|simpl; lia].
  simpl. pose proof (half_nonneg Hcs).
  rewrite slice_prefix by lia. unfold len in *. rewrite length_take. lia.
Qed.

(** With [overlap <= chunk_size // 2] every pass moves [start] forward. *)
Lemma chunk_at_progress start :
  0 < chunk_size -> overlap <= chunk_size / 2 ->
  start + 1 <= (chunk_at text chunk_size start).2 - overlap.
Proof.
  intros Hcs Hov. pose proof (half_lt Hcs). unfold chunk_at.
  destruct (start + chunk_size <? len text); [|simpl; lia].
  destruct (Z.gtb_spec (rfind (slice text start (start + chunk_size)) NL)
                       (chunk_size / 2)) as [Hgt|Hle]; simpl; lia.
Qed.

Lemma split_loop_Forall (P : str -> Prop) :
  (forall start, P (strip (chunk_at text chunk_size start).1)) ->
  forall fuel start chunks r,
    Forall P chunks ->
    split_loop fuel text chunk_size overlap start chunks = Some r ->
    Forall P r.
Proof.
  intros Hstep. induction fuel as [|fuel IH]; intros start chunks r Hc Hr;
    simpl in Hr; [discriminate|].
  destruct (start <? len text).
  - specialize (Hstep start).
    destruct (chunk_at text chunk_size start) as [chunk end_] eqn:E.
    eapply IH; [|exact Hr]. apply Forall_app_2; [exact Hc|].
    constructor; [exact Hstep | constructor].
  - injection Hr as <-. exact Hc.
Qed.

(** More fuel does not change a result. *)
Lemma split_loop_more_fuel fuel fuel' start chunks r :
  (fuel <= fuel')%nat ->
  split_loop fuel text chunk_size overlap start chunks = Some r ->
  split_loop fuel' text chunk_size overlap start chunks = Some r.
Proof.
  revert fuel' start chunks.
  induction fuel as [|fuel IH]; intros fuel' start chunks Hle Hr;
    [discriminate|].
  destruct fuel' as [|fuel']; [lia|]. simpl in *.
  destruct (start <? len text); [|exact Hr].
  destruct (chunk_at text chunk_size start) as [chunk end_].
  apply IH; [lia | exact Hr].
Qed.

(** The loop leaves once the fuel exceeds the distance from [start] to the
    end of the text. *)
Lemma split_loop_total :
  0 < chunk_size -> overlap <= chunk_size / 2 ->
  forall fuel start chunks,
    (Z.to_nat (len text - start) < fuel)%nat ->
    exists r, split_loop fuel text chunk_size overlap start chunks = Some r.
Proof.
  intros Hcs Hov. induction fuel as [|fuel IH]; intros start chunks Hfuel;
    [lia|].
  simpl. destruct (Z.ltb_spec start (len text)) as [Hlt|Hge]; [|eauto].
  pose proof (chunk_at_progress start Hcs Hov) as Hp.
  destruct (chunk_at text chunk_size start) as [chunk end_].
  simpl in Hp. apply IH. lia.
Qed.

End ChunkerFacts.

(** [strip] leaves nothing exactly of the strings made of whitespace. *)
Section StripFacts.

Lemma lstrip_nil_iff s : lstrip s = [] <-> forallb is_space s = true.
Proof.
  induction s as [|c s IH]; simpl; [tauto|].
  destruct (is_space c); simpl; [exact IH|]. split; discriminate.
Qed.

Lemma forallb_reverse (f : N -> bool) s :
  forallb f (reverse s) = forallb f s.
Proof.
  induction s as [|c s IH]; [reflexivity|].
  rewrite reverse_cons, forallb_app, IH. simpl.
  rewrite andb_true_r. apply andb_comm.
Qed.

Lemma forallb_lstrip s :
  forallb is_space (lstrip s) = forallb is_space s.
Proof.
  induction s as [|c s IH]; [reflexivity|]. simpl.
  destruct (is_space c) eqn:E; simpl; [exact IH | now rewrite E].
Qed.

Lemma strip_nil_iff s : strip s = [] <-> forallb is_space s = true.
Proof.
  unfold strip, rstrip. rewrite <- forallb_lstrip, <- forallb_reverse.
  rewrite <- lstrip_nil_iff. split.
  - intros H. apply (f_equal reverse) in H.
    now rewrite reverse_involutive in H.
  - intros ->. reflexivity.
Qed.

Lemma nonempty_strip s : nonempty (strip s) = negb (forallb is_space s).
Proof.
  destruct (forallb is_space s) eqn:E.
  - apply strip_nil_iff in E. now rewrite E.
  - destruct (strip s) eqn:Es; [|reflexivity].
    apply strip_nil_iff in Es. congruence.
Qed.

End StripFacts.

(** ** Claims about [_split_into_chunks] *)

(** C10. Whenever [_split_into_chunks(text, chunk_size, overlap)] returns,
    with [chunk_size > 0] and [0 <= overlap < chunk_size], every string of
    the returned list has at most [chunk_size] characters. *)
Theorem chunks_at_most_chunk_size (text : str) (chunk_size overlap : Z)
    (fuel : nat) (r : list str) :
  0 < chunk_size -> 0 <= overlap < chunk_size ->
  _split_into_chunks fuel text chunk_size overlap = Some r ->
  Forall (fun c => len c <= chunk_size) r.
Proof.
  intros Hcs _ Hr. unfold _split_into_chunks in Hr.
  destruct (split_loop fuel text chunk_size overlap 0 []) as [l|] eqn:El;
    [|discriminate].
  injection Hr as <-.
  assert (Hl : Forall (fun c => len c <= chunk_size) l).
  { eapply split_loop_Forall; [| constructor | exact El].
    intros start. etransitivity; [apply strip_len|].
    apply chunk_at_len. lia. }
  apply List.Forall_forall. intros c Hc. apply List.filter_In in Hc as [Hc _].
  revert c Hc. now apply List.Forall_forall.
Qed.

Lemma chunks_at_most_chunk_size_witness :
  0 < 10 /\ 0 <= 3 < 10 /\
  Forall (fun c => len c <= 10)
         (default [] (_split_into_chunks 20 (py "one two three four five six")
                                         10 3)).
Proof.
  split; [lia|]. split; [lia|].
  apply (chunks_at_most_chunk_size (py "one two three four five six") 10 3 20);
    [lia | lia | vm_compute; reflexivity].
Defined.

Lemma split_loop_stalls fuel chunks :
  split_loop fuel stall_text 4 3 0 chunks = None.
Proof.
  revert chunks. induction fuel as [|fuel IH]; intros chunks; [reflexivity|].
  cbn [split_loop].
  replace (0 <? len stall_text) with true by reflexivity.
  replace (chunk_at stall_text 4 0) with (py "aaa", 3) by reflexivity.
  cbv beta iota. replace (3 - 3) with 0 by reflexivity. apply IH.
Qed.

(** C5, as stated, fails: [chunk_size=4, overlap=3] satisfy
    [chunk_size > 0] and [0 <= overlap < chunk_size], and on [stall_text] the
    loop is still running after any number of passes. *)
Lemma split_stalls_within_precondition :
  0 < 4 /\ 0 <= 3 < 4 /\
  forall fuel, _split_into_chunks fuel stall_text 4 3 = None.
Proof.
  split; [lia|]. split; [lia|]. intros fuel. unfold _split_into_chunks.
  now rewrite split_loop_stalls.
Qed.

(** Under [overlap <= chunk_size // 2] the chunker returns, whatever the
    fuel beyond [len(text)]. *)
Lemma split_returns (text : str) (chunk_size overlap : Z) :
  0 < chunk_size -> overlap <= chunk_size / 2 ->
  exists r, forall fuel, (length text < fuel)%nat ->
    _split_into_chunks fuel text chunk_size overlap = Some r.
Proof.
  intros Hcs Hov.
  destruct (split_loop_total text chunk_size overlap Hcs Hov
              (S (length text)) 0 []) as [r Hr].
  { unfold len. lia. }
  exists (List.filter nonempty r). intros fuel Hfuel. unfold _split_into_chunks.
  rewrite (split_loop_more_fuel text chunk_size overlap
             (S (length text)) fuel 0 [] r); [reflexivity | lia | exact Hr].
Qed.

(** C5, amended. For every text, and every [chunk_size > 0] and
    [0 <= overlap <= chunk_size // 2], [_split_into_chunks] returns: the loop
    leaves within [len(text)] passes, and the result is the same for any
    larger fuel. *)
Theorem split_terminates (text : str) (chunk_size overlap : Z) :
  0 < chunk_size -> 0 <= overlap <= chunk_size / 2 ->
  exists r, forall fuel, (length text < fuel)%nat ->
    _split_into_chunks fuel text chunk_size overlap = Some r.
Proof. intros Hcs [_ Hov]. now apply split_returns. Qed.

Lemma split_terminates_witness :
  0 < 10 /\ 0 <= 5 <= 10 / 2 /\
  exists r, forall fuel, (length stall_text < fuel)%nat ->
    _split_into_chunks fuel stall_text 10 5 = Some r.
Proof.
  split; [lia|]. split; [vm_compute; split; discriminate|].
  apply (split_terminates stall_text 10 5); [lia|].
  vm_compute; split; discriminate.
Defined.

(** The bound [overlap <= chunk_size // 2] cannot be relaxed: beyond it, a
    newline at index [overlap] of a long enough text sends [start] back to
    0 at every pass. *)
Lemma split_stalls_past_half (chunk_size overlap : Z) :
  chunk_size / 2 < overlap < chunk_size ->
  forall fuel,
    _split_into_chunks fuel
      (replicate (Z.to_nat overlap) 97%N ++ [NL]
       ++ replicate (Z.to_nat chunk_size) 97%N)
      chunk_size overlap
    = None.
Proof.
  intros [Hhalf Hlt] fuel.
  set (text := replicate (Z.to_nat overlap) 97%N ++ [NL]
               ++ replicate (Z.to_nat chunk_size) 97%N).
  assert (Hcs : 0 < chunk_size).
  { destruct (Z.lt_trichotomy chunk_size 0) as [Hn|[Hz|Hp]]; [|subst|exact Hp].
    - pose proof (Z.div_le_lower_bound chunk_size 2 chunk_size
                    ltac:(lia) ltac:(lia)).
      lia.
    - change (0 / 2) with 0 in Hhalf. lia. }
  pose proof (half_nonneg chunk_size ltac:(lia)) as Hh.
  assert (Hlen : len text = overlap + 1 + chunk_size).
  { unfold len, text. rewrite !length_app, !length_replicate. simpl. lia. }
  assert (Hcand : slice text 0 (0 + chunk_size) = take (Z.to_nat chunk_size) text).
  { rewrite slice_prefix by lia. f_equal. }
  assert (Hlast : last_at NL (take (Z.to_nat chunk_size) text)
                          (Z.to_nat overlap)).
  { split.
    - rewrite lookup_take_lt by lia. unfold text.
      rewrite lookup_app_r by (rewrite length_replicate; lia).
      rewrite length_replicate, Nat.sub_diag. reflexivity.
    - intros j Hj Hnl. apply lookup_take_Some in Hnl as [Hnl _].
      unfold text in Hnl.
      rewrite lookup_app_r in Hnl by (rewrite length_replicate; lia).
      rewrite length_replicate in Hnl.
      destruct (j - Z.to_nat overlap)%nat as [|i] eqn:E; [lia|].
      simpl in Hnl. apply lookup_replicate in Hnl as [Hnl _]. discriminate. }
  assert (Hchunk : chunk_at text chunk_size 0
                   = (replicate (Z.to_nat overlap) 97%N, overlap)).
  { unfold chunk_at. rewrite Hcand, Hlen, (rfind_last _ _ _ Hlast).
    destruct (Z.ltb_spec (0 + chunk_size) (overlap + 1 + chunk_size)); [|lia].
    destruct (Z.gtb_spec (Z.of_nat (Z.to_nat overlap)) (chunk_size / 2));
      [|lia].
    rewrite slice_prefix by lia. rewrite Nat2Z.id, take_take.
    rewrite Nat.min_l by lia. unfold text.
    rewrite take_app_le by (rewrite length_replicate; lia).
    rewrite take_ge by (rewrite length_replicate; lia).
    f_equal. lia. }
  unfold _split_into_chunks.
  assert (Hloop : forall chunks,
             split_loop fuel text chunk_size overlap 0 chunks = None).
  { induction fuel as [|fuel IH]; intros chunks; [reflexivity|].
    cbn [split_loop]. rewrite Hlen.
    destruct (Z.ltb_spec 0 (overlap + 1 + chunk_size)); [|lia].
    rewrite Hchunk. rewrite Z.sub_diag. apply IH. }
  now rewrite Hloop.
Qed.

(** With the callers' parameters the chunker returns, and
    [pipeline_chunks] is what it returns. *)
Lemma pipeline_chunks_spec (text : str) (fuel : nat) :
  (length text < fuel)%nat ->
  _split_into_chunks fuel text chunk_size_3000 overlap_300
  = Some (pipeline_chunks text).
Proof.
  intros Hfuel.
  destruct (split_returns text chunk_size_3000 overlap_300) as [r Hr].
  { reflexivity. } { vm_compute. discriminate. }
  unfold pipeline_chunks. rewrite (Hr (S (length text))) by lia.
  now apply Hr.
Qed.

(** ** A text made of one visible character *)

Section UniformText.

Variable a : N.
Hypothesis visible : is_space a = false.

Lemma strip_replicate m : strip (replicate m a) = replicate m a.
Proof.
  assert (Hl : forall k, lstrip (replicate k a) = replicate k a).
  { intros [|k]; [reflexivity|]. simpl. now rewrite visible. }
  unfold strip, rstrip. now rewrite Hl, reverse_replicate, Hl, reverse_replicate.
Qed.

Lemma rfind_replicate m : rfind (replicate m a) NL = -1.
Proof.
  apply rfind_from_absent. intros j Hj.
  apply lookup_replicate in Hj as [Ha _]. subst a. discriminate.
Qed.

Lemma separator_not_in_replicate m :
  a <> 61%N -> contains (replicate m a) SEPARATOR = false.
Proof.
  intros Ha. induction m as [|m IH]; [reflexivity|].
  cbn [replicate contains]. rewrite IH, orb_false_r.
  replace SEPARATOR with (61%N :: replicate 15 61%N) by reflexivity.
  unfold startswith. cbn [startswith_list].
  apply N.eqb_neq in Ha. now rewrite Ha.
Qed.

Variable n : nat.
Variables chunk_size overlap : Z.
Hypothesis overlap_nonneg : 0 <= overlap.
Hypothesis overlap_lt : overlap < chunk_size.

(** No newline, no cut: a pass takes the [chunk_size] letters from [start],
    or those that are left. *)
Lemma chunk_at_replicate start :
  0 <= start ->
  chunk_at (replicate n a) chunk_size start
  = (replicate (Z.to_nat (Z.min (start + chunk_size) (Z.of_nat n)
                          - Z.min start (Z.of_nat n))) a,
     start + chunk_size).
Proof.
  intros Hs. unfold chunk_at.
  assert (Hslice : slice (replicate n a) start (start + chunk_size)
                   = replicate (Z.to_nat (Z.min (start + chunk_size) (Z.of_nat n)
                                          - Z.min start (Z.of_nat n))) a).
  { rewrite slice_inside by lia. unfold len. rewrite length_replicate.
    rewrite drop_replicate, take_replicate. f_equal. lia. }
  rewrite Hslice, rfind_replicate.
  pose proof (half_nonneg chunk_size ltac:(lia)).
  destruct (start + chunk_size <? len (replicate n a)); [|reflexivity].
  destruct (Z.gtb_spec (-1) (chunk_size / 2)); [lia | reflexivity].
Qed.

(** The loop makes one chunk per multiple of [chunk_size - overlap] below
    the length of the text. *)
Lemma split_loop_replicate (k : nat) :
  forall fuel start chunks r,
    0 <= start ->
    Z.of_nat n <= start + Z.of_nat k * (chunk_size - overlap) ->
    ((0 < k)%nat ->
     start + (Z.of_nat k - 1) * (chunk_size - overlap) < Z.of_nat n) ->
    split_loop fuel (replicate n a) chunk_size overlap start chunks = Some r ->
    length (List.filter nonempty r)
    = (length (List.filter nonempty chunks) + k)%nat.
Proof.
  induction k as [|k IH]; intros fuel start chunks r Hs Hup Hlow Hr;
    (destruct fuel as [|fuel]; [discriminate|]); cbn [split_loop] in Hr;
    unfold len in Hr; rewrite length_replicate in Hr.
  - destruct (Z.ltb_spec start (Z.of_nat n)); [lia|].
    injection Hr as <-. lia.
  - specialize (Hlow ltac:(lia)).
    destruct (Z.ltb_spec start (Z.of_nat n)) as [Hlt|Hge]; [|nia].
    rewrite chunk_at_replicate, strip_replicate in Hr by lia.
    apply IH in Hr; [| lia | lia | nia].
    rewrite Hr, List.filter_app, length_app.
    destruct (Z.to_nat (Z.min (start + chunk_size) (Z.of_nat n)
                        - Z.min start (Z.of_nat n))) eqn:E; [lia|].
    simpl. lia.
Qed.

End UniformText.

(** With the callers' parameters a text of [n] visible letters gives one
    chunk per multiple of 2700 below [n]. *)
Lemma pipeline_chunks_replicate (a : N) (n k : nat) :
  is_space a = false ->
  Z.of_nat n <= Z.of_nat k * 2700 ->
  ((0 < k)%nat -> (Z.of_nat k - 1) * 2700 < Z.of_nat n) ->
  length (pipeline_chunks (replicate n a)) = k.
Proof.
  intros Ha Hup Hlow.
  pose proof (pipeline_chunks_spec (replicate n a)
                (S (length (replicate n a))) ltac:(lia)) as Hspec.
  unfold _split_into_chunks in Hspec.
  destruct (split_loop (S (length (replicate n a))) (replicate n a)
                       chunk_size_3000 overlap_300 0 []) as [r|] eqn:Er;
    [|discriminate].
  apply (inj Some) in Hspec. rewrite <- Hspec.
  apply (split_loop_replicate a Ha n chunk_size_3000 overlap_300
           ltac:(discriminate) ltac:(reflexivity) k) in Er.
  - exact Er.
  - lia.
  - unfold chunk_size_3000, overlap_300. lia.
  - unfold chunk_size_3000, overlap_300. lia.
Qed.

(** C1, as stated, fails at the callers' own parameters: a text of 2800
    letters is shorter than [chunk_size=3000] and not blank, yet the loop
    runs a second pass from [start = 2700] and two chunks come back. *)
Lemma short_text_two_chunks :
  let text := replicate 2800 97%N in
  len text < chunk_size_3000
  /\ strip text = text
  /\ _split_into_chunks 3 text chunk_size_3000 overlap_300
     = Some [text; replicate 100 97%N]
  /\ forall fuel, (2800 < fuel)%nat ->
       _split_into_chunks fuel text chunk_size_3000 overlap_300
       <> Some [strip text].
Proof.
  cbv zeta.
  assert (E : pipeline_chunks (replicate 2800 97%N)
              = [replicate 2800 97%N; replicate 100 97%N])
    by (vm_compute; reflexivity).
  split; [reflexivity|]. split; [vm_compute; reflexivity|].
  split; [vm_compute; reflexivity|].
  intros fuel Hfuel. rewrite pipeline_chunks_spec, E.
  - discriminate.
  - now rewrite length_replicate.
Qed.

(** C1, amended. For every text of at most [chunk_size - overlap]
    characters (with [overlap >= 0]), [_split_into_chunks] returns exactly
    one chunk, the trimmed text, or no chunk when the text is all
    whitespace. *)
Theorem short_text_one_chunk (text : str) (chunk_size overlap : Z)
    (fuel : nat) :
  0 <= overlap -> len text <= chunk_size - overlap -> (2 <= fuel)%nat ->
  _split_into_chunks fuel text chunk_size overlap
  = Some (if forallb is_space text then [] else [strip text]).
Proof.
  intros Hov Hlen Hfuel. destruct fuel as [|[|fuel]]; [lia | lia |].
  unfold _split_into_chunks. cbn [split_loop].
  destruct (Z.ltb_spec 0 (len text)) as [Hpos|Hzero].
  - unfold chunk_at.
    destruct (Z.ltb_spec (0 + chunk_size) (len text)) as [Hlt|Hge]; [lia|].
    destruct (Z.ltb_spec (0 + chunk_size - overlap) (len text)) as [Hlt|_];
      [lia|].
    rewrite slice_whole by lia. simpl.
    rewrite nonempty_strip. now destruct (forallb is_space text).
  - destruct text as [|c text]; [reflexivity|].
    unfold len in Hzero. simpl in Hzero. lia.
Qed.

Lemma short_text_one_chunk_witness :
  0 <= 300 /\ len (py "  hello world ") <= 3000 - 300 /\ (2 <= 2)%nat /\
  _split_into_chunks 2 (py "  hello world ") 3000 300
  = Some [py "hello world"].
Proof.
  split; [lia|]. split; [vm_compute; discriminate|]. split; [lia|].
  apply (short_text_one_chunk (py "  hello world ") 3000 300 2);
    [lia | vm_compute; discriminate | lia].
Defined.

(** C4, as stated, fails when the last newline sits exactly at
    [chunk_size // 2]: the test of line 155 is strict, the candidate is kept
    whole and [end] stays [start + chunk_size]. *)
Lemma newline_at_midpoint_not_cut :
  let text := py "aaaaa" ++ [NL] ++ py "aaaaaaaaa" in
  let candidate := slice text 0 (0 + 10) in
  0 + 10 < len text
  /\ last_at NL candidate 5
  /\ 10 / 2 <= 5
  /\ chunk_at text 10 0 = (candidate, 10)
  /\ chunk_at text 10 0 <> (take 5 candidate, 0 + 5).
Proof.
  cbv zeta. split; [reflexivity|]. split.
  - apply (rfind_found (slice (py "aaaaa" ++ [NL] ++ py "aaaaaaaaa") 0 10) NL).
    vm_compute. discriminate.
  - split; [vm_compute; discriminate|]. split; [reflexivity|].
    vm_compute. discriminate.
Qed.

(** C4, amended. At a pass whose candidate [text[start:start+chunk_size]]
    does not reach the end of the text, if the last newline of the candidate
    lies strictly beyond index [chunk_size // 2], the chunk is the candidate
    cut just before that newline, [end] becomes [start] plus the newline's
    index (for [start >= 0], the newline's position in the text), and the
    loop goes on from [end - overlap] with the trimmed chunk appended. *)
Theorem newline_break (text : str) (chunk_size overlap start : Z)
    (chunks : list str) (fuel k : nat) :
  0 < chunk_size -> start + chunk_size < len text ->
  last_at NL (slice text start (start + chunk_size)) k ->
  chunk_size / 2 < Z.of_nat k ->
  let candidate := slice text start (start + chunk_size) in
  chunk_at text chunk_size start = (take k candidate, start + Z.of_nat k)
  /\ (0 <= start -> text !! Z.to_nat (start + Z.of_nat k) = Some NL)
  /\ split_loop (S fuel) text chunk_size overlap start chunks
     = split_loop fuel text chunk_size overlap (start + Z.of_nat k - overlap)
                  (chunks ++ [strip (take k candidate)]).
Proof.
  intros Hcs Hend Hlast Hk candidate.
  assert (Hchunk : chunk_at text chunk_size start
                   = (take k candidate, start + Z.of_nat k)).
  { unfold chunk_at. fold candidate.
    destruct (Z.ltb_spec (start + chunk_size) (len text)) as [_|Hge]; [|lia].
    rewrite (rfind_last candidate NL k Hlast).
    destruct (Z.gtb_spec (Z.of_nat k) (chunk_size / 2)) as [_|Hle]; [|lia].
    rewrite slice_prefix by lia. now rewrite Nat2Z.id. }
  split; [exact Hchunk|]. split.
  - intros Hstart. destruct Hlast as [Hnl _]. unfold candidate in Hnl.
    rewrite slice_inside in Hnl by lia.
    apply lookup_take_Some in Hnl as [Hnl _]. rewrite lookup_drop in Hnl.
    rewrite <- Hnl. f_equal. lia.
  - cbn [split_loop].
    destruct (Z.ltb_spec start (len text)) as [_|Hge]; [|lia].
    now rewrite Hchunk.
Qed.

Lemma newline_break_witness :
  let text := py "aaaaaaa" ++ [NL] ++ py "bbbbbbbbb" in
  split_loop 5 text 10 2 0 []
  = split_loop 4 text 10 2 (0 + Z.of_nat 7 - 2)
               ([] ++ [strip (take 7 (slice text 0 (0 + 10)))]).
Proof.
  cbv zeta.
  apply (newline_break (py "aaaaaaa" ++ [NL] ++ py "bbbbbbbbb") 10 2 0 [] 4 7).
  - lia.
  - vm_compute. reflexivity.
  - apply (rfind_found
             (slice (py "aaaaaaa" ++ [NL] ++ py "bbbbbbbbb") 0 (0 + 10)) NL).
    vm_compute. discriminate.
  - vm_compute. reflexivity.
Defined.

(** ** The prepared lists, in closed form *)

Section PreparedFacts.

Lemma papp_no_chunks_l p : papp no_chunks p = p.
Proof. now destruct p. Qed.

Lemma papp_no_chunks_r p : papp p no_chunks = p.
Proof. destruct p. unfold papp. simpl. now rewrite !app_nil_r. Qed.

Lemma papp_assoc p q r : papp (papp p q) r = papp p (papp q r).
Proof. unfold papp. simpl. now rewrite !app_assoc. Qed.

Lemma aligned_papp p q : aligned p -> aligned q -> aligned (papp p q).
Proof.
  intros [Hm Hi] [Hm' Hi']. unfold aligned, papp. simpl.
  rewrite !length_app. lia.
Qed.

Lemma aligned_no_chunks : aligned no_chunks.
Proof. now split. Qed.

Lemma awesome_chunks_from file_name original_file total i chunks acc :
  awesome_chunks file_name original_file total i chunks acc
  = papp acc
      (Prepared chunks
         (imap (fun j _ => awesome_metadata file_name original_file
                                            (i + j) total) chunks)
         (imap (fun j _ => awesome_id file_name (i + j)) chunks)).
Proof.
  revert i acc. induction chunks as [|chunk rest IH]; intros i acc.
  - simpl. now rewrite papp_no_chunks_r.
  - simpl. rewrite IH. unfold papp, append3. simpl.
    rewrite <- !app_assoc. simpl. rewrite Nat.add_0_r.
    do 2 f_equal; f_equal; apply imap_ext; intros j x _; simpl;
      now rewrite Nat.add_succ_r.
Qed.

Lemma awesome_chunks_group file_name original_file chunks acc :
  awesome_chunks file_name original_file (length chunks) O chunks acc
  = papp acc (awesome_group file_name original_file chunks).
Proof. apply awesome_chunks_from. Qed.

Lemma single_chunks_from file_path total i chunks acc :
  single_chunks file_path total i chunks acc
  = papp acc
      (Prepared chunks
         (imap (fun j _ => single_metadata file_path (i + j) total) chunks)
         (imap (fun j _ => single_id file_path (i + j)) chunks)).
Proof.
  revert i acc. induction chunks as [|chunk rest IH]; intros i acc.
  - simpl. now rewrite papp_no_chunks_r.
  - simpl. rewrite IH. unfold papp, append3. simpl.
    rewrite <- !app_assoc. simpl. rewrite Nat.add_0_r.
    do 2 f_equal; f_equal; apply imap_ext; intros j x _; simpl;
      now rewrite Nat.add_succ_r.
Qed.

Lemma single_chunks_group file_path chunks :
  single_chunks file_path (length chunks) O chunks no_chunks
  = single_group file_path chunks.
Proof. rewrite single_chunks_from. apply papp_no_chunks_l. Qed.

Lemma aligned_awesome_group file_name original_file chunks :
  aligned (awesome_group file_name original_file chunks).
Proof. split; simpl; apply length_imap. Qed.

Lemma aligned_single_group file_path chunks :
  aligned (single_group file_path chunks).
Proof. split; simpl; apply length_imap. Qed.

End PreparedFacts.

Section BlocksFacts.

Lemma awesome_blocks_from original_file file_idx files acc :
  awesome_blocks original_file file_idx files acc
  = papp acc
      (pconcat (imap (fun j b => block_group original_file (file_idx + j) b)
                     files)).
Proof.
  revert file_idx acc.
  induction files as [|b files IH]; intros file_idx acc.
  - simpl. now rewrite papp_no_chunks_r.
  - cbn [awesome_blocks imap pconcat foldr]. fold pconcat.
    unfold block_group at 1. rewrite Nat.add_0_r.
    assert (Hext : imap ((fun j b0 => block_group original_file
                                        (file_idx + j) b0) ∘ S) files
                   = imap (fun j b0 => block_group original_file
                                         (S file_idx + j) b0) files).
    { apply imap_ext. intros j x _. simpl. now rewrite Nat.add_succ_r. }
    rewrite Hext.
    destruct (parse_block file_idx b) as [[file_name file_content]|].
    + rewrite IH, awesome_chunks_group. apply papp_assoc.
    + rewrite IH. now rewrite papp_no_chunks_l.
Qed.

Lemma aligned_block_group original_file file_idx b :
  aligned (block_group original_file file_idx b).
Proof.
  unfold block_group.
  destruct (parse_block file_idx b) as [[file_name file_content]|].
  - apply aligned_awesome_group.
  - apply aligned_no_chunks.
Qed.

Lemma aligned_pconcat groups : Forall aligned groups -> aligned (pconcat groups).
Proof.
  induction 1 as [|g groups Hg _ IH]; simpl.
  - apply aligned_no_chunks.
  - now apply aligned_papp.
Qed.

Lemma aligned_awesome_blocks original_file files :
  aligned (awesome_blocks original_file O files no_chunks).
Proof.
  rewrite awesome_blocks_from, papp_no_chunks_l. apply aligned_pconcat.
  apply Forall_forall. intros g Hg.
  apply elem_of_lookup_imap_1 in Hg as (j & b & -> & _).
  apply aligned_block_group.
Qed.

End BlocksFacts.

(** ** Batches *)

Section BatchFacts.

Context {A : Type}.

(** [l[i:i+k]] for indices that are not negative. *)
Lemma slice_take_drop (l : list A) (i k : nat) :
  slice l (Z.of_nat i) (Z.of_nat (i + k)) = take k (drop i l).
Proof.
  rewrite slice_inside by lia. unfold len.
  destruct (decide (i <= length l)%nat) as [Hi|Hi].
  - rewrite (Z.min_l (Z.of_nat i)) by lia. rewrite Nat2Z.id.
    destruct (decide (i + k <= length l)%nat) as [Hk|Hk].
    + rewrite Z.min_l by lia. f_equal. lia.
    + rewrite Z.min_r by lia.
      rewrite !take_ge; auto; rewrite length_drop; lia.
  - rewrite (Z.min_r (Z.of_nat i)) by lia. rewrite Nat2Z.id.
    rewrite !drop_ge by lia. now rewrite !take_nil.
Qed.

(** Cutting a list into consecutive runs of [step] items loses nothing and
    keeps the order. *)
Lemma concat_runs (step m : nat) (l : list A) :
  (length l <= m * step)%nat ->
  concat ((fun k => take step (drop (k * step) l)) <$> seq 0 m) = l.
Proof.
  revert l. induction m as [|m IH]; intros l Hl.
  - destruct l; [reflexivity | simpl in Hl; lia].
  - rewrite <- cons_seq, <- fmap_S_seq. cbn [fmap list_fmap concat].
    rewrite <- list_fmap_compose. simpl drop.
    transitivity (take step l ++ drop step l); [|apply take_drop].
    f_equal. rewrite <- (IH (drop step l)).
    + f_equal. apply list_fmap_ext. intros _ k _. simpl.
      now rewrite drop_drop.
    + rewrite length_drop. lia.
Qed.

Lemma range_step_covers (n step : nat) :
  (0 < step)%nat -> (n <= (n + step - 1) `div` step * step)%nat.
Proof.
  intros Hs.
  pose proof (Nat.div_mod (n + step - 1) step ltac:(lia)) as Hd.
  pose proof (Nat.mod_upper_bound (n + step - 1) step ltac:(lia)) as Hm.
  lia.
Qed.

Lemma concat_range_step (step : nat) (l : list A) :
  (0 < step)%nat ->
  concat ((fun i => take step (drop i l)) <$> range_step (length l) step) = l.
Proof.
  intros Hs. unfold range_step. rewrite <- list_fmap_compose.
  apply (concat_runs step). now apply range_step_covers.
Qed.

End BatchFacts.

Section AddBatchesFacts.

Lemma add_batches_app p starts coll :
  add_batches p starts coll = coll ++ (batch_at p <$> starts).
Proof.
  revert coll. induction starts as [|i rest IH]; intros coll; simpl.
  - now rewrite app_nil_r.
  - rewrite IH, <- app_assoc. reflexivity.
Qed.

Lemma batch_at_take_drop p i :
  batch_at p i
  = AddCall (take batch_size (drop i (all_documents p)))
            (take batch_size (drop i (all_metadatas p)))
            (take batch_size (drop i (all_ids p))).
Proof. unfold batch_at. now rewrite !slice_take_drop. Qed.

(** The start indices are the multiples of 100 below the number of
    chunks, in increasing order. *)
Lemma range_step_lookup n step k :
  (0 < step)%nat ->
  range_step n step !! k
  = if decide (k * step < n)%nat then Some (k * step)%nat else None.
Proof.
  intros Hs. unfold range_step. rewrite list_lookup_fmap.
  pose proof (range_step_covers n step Hs) as Hc.
  pose proof (Nat.div_mod (n + step - 1) step ltac:(lia)) as Hd.
  pose proof (Nat.mod_upper_bound (n + step - 1) step ltac:(lia)) as Hm.
  destruct (decide (k * step < n)%nat) as [Hk|Hk].
  - rewrite lookup_seq_lt; [reflexivity|]. nia.
  - rewrite lookup_seq_ge; [reflexivity|]. nia.
Qed.

End AddBatchesFacts.

(** ** What an ingestion submits *)

Section IngestFacts.

Lemma batch_size_pos : (0 < batch_size)%nat.
Proof. unfold batch_size. lia. Qed.

(** The bundle path adds the batches cut at the multiples of 100; with
    nothing prepared there is no start index and no call. *)
Lemma ingest_awesome_log content source_path coll :
  (_ingest_awesome_format content source_path coll).1
  = coll ++ (batch_at (awesome_prepared content source_path)
             <$> range_step
                   (length (all_documents
                              (awesome_prepared content source_path)))
                   batch_size).
Proof.
  unfold _ingest_awesome_format. fold (awesome_prepared content source_path).
  cbn [fst].
  destruct (all_documents (awesome_prepared content source_path)) eqn:E.
  - simpl. now rewrite app_nil_r.
  - cbn [nonempty]. apply add_batches_app.
Qed.

Lemma ingest_single_log content file_path coll :
  (_ingest_single_file content file_path coll).1
  = coll ++ (if nonempty (pipeline_chunks content)
             then [AddCall (pipeline_chunks content)
                     (all_metadatas (single_group file_path
                                       (pipeline_chunks content)))
                     (all_ids (single_group file_path
                                 (pipeline_chunks content)))]
             else []).
Proof.
  unfold _ingest_single_file. cbn [fst]. rewrite single_chunks_group.
  cbn [all_documents single_group].
  destruct (nonempty (pipeline_chunks content)); [reflexivity|].
  now rewrite app_nil_r.
Qed.

Lemma ingest_file_log content file_path coll :
  (ingest_file content file_path coll).1
  = coll ++ submitted content file_path.
Proof.
  unfold submitted, ingest_file.
  destruct (contains content SEPARATOR).
  - now rewrite !ingest_awesome_log.
  - now rewrite !ingest_single_log.
Qed.

Lemma ingest_file_count_indep content file_path coll :
  (ingest_file content file_path coll).2
  = (ingest_file content file_path []).2.
Proof. unfold ingest_file. now destruct (contains content SEPARATOR). Qed.

Lemma batches_documents p :
  concat (documents <$> (batch_at p
                         <$> range_step (length (all_documents p))
                                        batch_size))
  = all_documents p.
Proof.
  rewrite <- list_fmap_compose.
  rewrite <- (concat_range_step batch_size (all_documents p) batch_size_pos)
    at 2.
  f_equal. apply list_fmap_ext. intros _ i _. unfold compose.
  now rewrite batch_at_take_drop.
Qed.

Lemma batches_metadatas p :
  aligned p ->
  concat (metadatas <$> (batch_at p
                         <$> range_step (length (all_documents p))
                                        batch_size))
  = all_metadatas p.
Proof.
  intros [Hm _]. rewrite <- list_fmap_compose, <- Hm.
  rewrite <- (concat_range_step batch_size (all_metadatas p) batch_size_pos)
    at 2.
  f_equal. apply list_fmap_ext. intros _ i _. unfold compose.
  now rewrite batch_at_take_drop.
Qed.

Lemma batches_ids p :
  aligned p ->
  concat (ids <$> (batch_at p
                   <$> range_step (length (all_documents p)) batch_size))
  = all_ids p.
Proof.
  intros [_ Hi]. rewrite <- list_fmap_compose, <- Hi.
  rewrite <- (concat_range_step batch_size (all_ids p) batch_size_pos) at 2.
  f_equal. apply list_fmap_ext. intros _ i _. unfold compose.
  now rewrite batch_at_take_drop.
Qed.

Lemma submitted_awesome content file_path :
  contains content SEPARATOR = true ->
  submitted content file_path
  = batch_at (awesome_prepared content file_path)
    <$> range_step (length (all_documents
                              (awesome_prepared content file_path)))
                   batch_size.
Proof.
  intros Hc. unfold submitted, ingest_file. rewrite Hc.
  now rewrite ingest_awesome_log.
Qed.

Lemma submitted_single content file_path :
  contains content SEPARATOR = false ->
  submitted content file_path
  = if nonempty (pipeline_chunks content)
    then [AddCall (pipeline_chunks content)
            (all_metadatas (single_group file_path (pipeline_chunks content)))
            (all_ids (single_group file_path (pipeline_chunks content)))]
    else [].
Proof.
  intros Hc. unfold submitted, ingest_file. rewrite Hc.
  now rewrite ingest_single_log.
Qed.

(** Batch after batch, a bundle ingestion submits the prepared columns. *)
Lemma submitted_awesome_columns content file_path :
  contains content SEPARATOR = true ->
  submitted_documents content file_path
  = all_documents (awesome_prepared content file_path)
  /\ submitted_metadatas content file_path
     = all_metadatas (awesome_prepared content file_path)
  /\ submitted_ids content file_path
     = all_ids (awesome_prepared content file_path).
Proof.
  intros Hc.
  unfold submitted_documents, submitted_metadatas, submitted_ids.
  rewrite (submitted_awesome _ _ Hc).
  pose proof (aligned_awesome_blocks (basename file_path)
                (split content SEPARATOR)) as Hal.
  fold (awesome_prepared content file_path) in Hal.
  split; [apply batches_documents|].
  split; [now apply batches_metadatas | now apply batches_ids].
Qed.

Lemma submitted_single_columns content file_path :
  contains content SEPARATOR = false ->
  submitted_documents content file_path = pipeline_chunks content
  /\ submitted_metadatas content file_path
     = all_metadatas (single_group file_path (pipeline_chunks content))
  /\ submitted_ids content file_path
     = all_ids (single_group file_path (pipeline_chunks content)).
Proof.
  intros Hc.
  unfold submitted_documents, submitted_metadatas, submitted_ids.
  rewrite (submitted_single _ _ Hc).
  destruct (pipeline_chunks content) as [|c l] eqn:E; [now simpl|].
  cbn [nonempty fmap list_fmap concat documents metadatas ids].
  now rewrite !app_nil_r.
Qed.

End IngestFacts.

Section BatchingFacts.

Lemma range_step_elem n step i :
  (0 < step)%nat -> i ∈ range_step n step ->
  exists k, i = (k * step)%nat /\ (i < n)%nat
            /\ range_step n step !! k = Some i.
Proof.
  intros Hs Hi. apply list_elem_of_lookup in Hi as [k Hk].
  pose proof Hk as Hk'. rewrite range_step_lookup in Hk by exact Hs.
  destruct (decide (k * step < n)%nat); [|discriminate].
  injection Hk as <-. eauto.
Qed.

Lemma batch_call_ok p i :
  aligned p -> (i < length (all_documents p))%nat -> call_ok (batch_at p i).
Proof.
  intros [Hm Hi] Hlt. rewrite batch_at_take_drop. unfold call_ok.
  cbn [documents metadatas ids]. rewrite !length_take, !length_drop.
  split; [|lia].
  intros E. apply (f_equal length) in E.
  rewrite length_take, length_drop in E. cbn [length] in E.
  unfold batch_size in E. lia.
Qed.

(** The batches of a bundle ingestion: batch [k] (numbered [k + 1]) holds
    the chunks [100k .. 100k + 99] that exist, so every batch but the last
    holds 100 and the last holds the remainder. *)
Lemma bundle_batches_of_100 content file_path k c :
  contains content SEPARATOR = true ->
  submitted content file_path !! k = Some c ->
  let p := awesome_prepared content file_path in
  c = AddCall (take 100 (drop (k * 100) (all_documents p)))
              (take 100 (drop (k * 100) (all_metadatas p)))
              (take 100 (drop (k * 100) (all_ids p)))
  /\ length (documents c)
     = Nat.min 100 (length (all_documents p) - k * 100)
  /\ (1 <= length (documents c) <= 100)%nat
  /\ current_batch (k * 100) = S k
  /\ Z.of_nat (S k) <= total_batches p.
Proof.
  intros Hc Hk p. rewrite (submitted_awesome _ _ Hc) in Hk. fold p in Hk.
  rewrite list_lookup_fmap, range_step_lookup in Hk by apply batch_size_pos.
  destruct (decide (k * batch_size < length (all_documents p))%nat)
    as [Hlt|]; [|discriminate].
  injection Hk as <-. rewrite batch_at_take_drop. unfold batch_size in *.
  split; [reflexivity|]. cbn [documents].
  rewrite length_take, length_drop. split; [reflexivity|].
  split; [lia|]. split.
  - unfold current_batch, batch_size. rewrite Nat.div_mul by lia. lia.
  - unfold total_batches, batch_size, len.
    assert (Z.of_nat k <= (Z.of_nat (length (all_documents p)) - 1) / 100).
    { apply Z.div_le_lower_bound; lia. }
    lia.
Qed.

End BatchingFacts.

Lemma long_text_single : contains long_text SEPARATOR = false.
Proof. now apply separator_not_in_replicate. Qed.

Lemma long_text_chunks : length (pipeline_chunks long_text) = 101%nat.
Proof.
  apply (pipeline_chunks_replicate 97%N (Z.to_nat 270001) 101 eq_refl).
  - rewrite Z2Nat.id by discriminate. discriminate.
  - intros _. rewrite Z2Nat.id by discriminate. reflexivity.
Qed.

(** C3. The bundle path cuts the chunks into batches of at most 100 (see
    [bundle_batches_of_100]); the single-file path does not: for
    [long_text], which has no separator, all the 101 chunks are passed to
    [add] in one call. *)
Theorem single_file_one_call_of_101 :
  contains long_text SEPARATOR = false
  /\ (fun c => length (documents c)) <$> submitted long_text (py "big.txt")
     = [101%nat].
Proof.
  split; [exact long_text_single|].
  pose proof (submitted_single long_text (py "big.txt") long_text_single)
    as Hs.
  rewrite Hs. pose proof long_text_chunks as Hl.
  destruct (pipeline_chunks long_text) as [|x l]; [discriminate|].
  cbn [nonempty fmap list_fmap documents]. now rewrite Hl.
Qed.

(** The single-file path in general: every chunk goes into one call. *)
Lemma single_file_single_call content file_path :
  contains content SEPARATOR = false ->
  (length (submitted content file_path) <= 1)%nat
  /\ forall c, c ∈ submitted content file_path ->
       documents c = pipeline_chunks content.
Proof.
  intros Hc. rewrite (submitted_single _ _ Hc).
  destruct (nonempty (pipeline_chunks content)); simpl.
  - split; [lia|]. intros c Hin. apply list_elem_of_singleton in Hin.
    now subst.
  - split; [lia|]. intros c Hin. now apply not_elem_of_nil in Hin.
Qed.

(** ** The parsed chunks and their identifiers *)

Section ParsedFacts.

Lemma pconcat_documents groups :
  all_documents (pconcat groups) = concat (all_documents <$> groups).
Proof.
  induction groups as [|g groups IH]; [reflexivity|].
  cbn [pconcat foldr papp all_documents fmap list_fmap concat].
  fold (pconcat groups). now rewrite IH.
Qed.

Lemma pconcat_ids groups :
  all_ids (pconcat groups) = concat (all_ids <$> groups).
Proof.
  induction groups as [|g groups IH]; [reflexivity|].
  cbn [pconcat foldr papp all_ids fmap list_fmap concat].
  fold (pconcat groups). now rewrite IH.
Qed.

Lemma awesome_prepared_documents content source_path :
  all_documents (awesome_prepared content source_path)
  = concat (imap (fun file_idx file_block =>
                    match parse_block file_idx file_block with
                    | Some (_, file_content) => pipeline_chunks file_content
                    | None => []
                    end)
                 (split content SEPARATOR)).
Proof.
  unfold awesome_prepared.
  rewrite awesome_blocks_from, papp_no_chunks_l, pconcat_documents.
  rewrite fmap_imap. f_equal. apply imap_ext. intros j b _.
  unfold compose, block_group. cbn [Nat.add].
  now destruct (parse_block j b) as [[file_name file_content]|].
Qed.

Lemma awesome_prepared_ids content source_path :
  all_ids (awesome_prepared content source_path)
  = concat (imap (fun file_idx file_block =>
                    match parse_block file_idx file_block with
                    | Some (file_name, file_content) =>
                        imap (fun i _ => described_id file_name (py "/") i)
                             (pipeline_chunks file_content)
                    | None => []
                    end)
                 (split content SEPARATOR)).
Proof.
  unfold awesome_prepared.
  rewrite awesome_blocks_from, papp_no_chunks_l, pconcat_ids.
  rewrite fmap_imap. f_equal. apply imap_ext. intros j b _.
  unfold compose, block_group. cbn [Nat.add].
  now destruct (parse_block j b) as [[file_name file_content]|].
Qed.

(** The documents handed to the store are the parsed chunks, in order. *)
Lemma submitted_documents_parsed content file_path :
  submitted_documents content file_path = parsed_chunks content.
Proof.
  unfold parsed_chunks. destruct (contains content SEPARATOR) eqn:Hc.
  - destruct (submitted_awesome_columns content file_path Hc) as (-> & _).
    apply awesome_prepared_documents.
  - now destruct (submitted_single_columns content file_path Hc) as (-> & _).
Qed.

(** The identifiers handed to the store are the described ones. *)
Lemma submitted_ids_described content file_path :
  submitted_ids content file_path = described_ids content file_path.
Proof.
  unfold described_ids. destruct (contains content SEPARATOR) eqn:Hc.
  - destruct (submitted_awesome_columns content file_path Hc)
      as (_ & _ & ->).
    apply awesome_prepared_ids.
  - now destruct (submitted_single_columns content file_path Hc)
      as (_ & _ & ->).
Qed.

(** The count that [ingest_file] returns. *)
Lemma ingest_file_count content file_path coll :
  (ingest_file content file_path coll).2 = len (parsed_chunks content).
Proof.
  unfold parsed_chunks, ingest_file.
  destruct (contains content SEPARATOR) eqn:Hc.
  - unfold _ingest_awesome_format. cbn [snd].
    fold (awesome_prepared content file_path).
    now rewrite awesome_prepared_documents.
  - reflexivity.
Qed.

(** Every call of [add] carries at least one chunk, with as many metadata
    records and identifiers. *)
Lemma submitted_calls_ok content file_path :
  Forall call_ok (submitted content file_path).
Proof.
  destruct (contains content SEPARATOR) eqn:Hc.
  - rewrite (submitted_awesome _ _ Hc).
    pose proof (aligned_awesome_blocks (basename file_path)
                  (split content SEPARATOR)) as Hal.
    fold (awesome_prepared content file_path) in Hal.
    apply Forall_fmap, Forall_forall. intros i Hi.
    apply range_step_elem in Hi as (k & _ & Hlt & _);
      [|apply batch_size_pos].
    now apply batch_call_ok.
  - rewrite (submitted_single _ _ Hc).
    destruct (pipeline_chunks content) as [|x l] eqn:E; simpl;
      [constructor|].
    constructor; [|constructor]. unfold call_ok. simpl.
    rewrite !length_imap. split; [discriminate | split; reflexivity].
Qed.

(** Without a document in any call there is no call. *)
Lemma no_documents_no_call (calls : list add_call) :
  Forall call_ok calls -> concat (documents <$> calls) = [] -> calls = [].
Proof.
  intros Hok Hnone. destruct calls as [|c calls]; [reflexivity|].
  apply Forall_cons in Hok as [(Hne & _) _].
  cbn [fmap list_fmap concat] in Hnone.
  apply app_eq_nil in Hnone as [Hd _]. contradiction.
Qed.

End ParsedFacts.

(** C7. [ingest_file] hands to the store exactly the chunks parsed out of
    the content, in order, over the calls of [add] it makes, each of which
    carries at least one chunk with its metadata record and its identifier;
    it returns the number of these chunks; and when no chunk is parsed out
    of the content it makes no call, leaves the store as it was and returns
    0. *)
Theorem ingest_file_returns_count (content file_path : str)
    (coll : list add_call) :
  (ingest_file content file_path coll).1
  = coll ++ submitted content file_path
  /\ submitted_documents content file_path = parsed_chunks content
  /\ (ingest_file content file_path coll).2 = len (parsed_chunks content)
  /\ Forall call_ok (submitted content file_path)
  /\ (parsed_chunks content = [] ->
      ingest_file content file_path coll = (coll, 0)).
Proof.
  split; [apply ingest_file_log|].
  split; [apply submitted_documents_parsed|].
  split; [apply ingest_file_count|].
  split; [apply submitted_calls_ok|].
  intros Hnone.
  pose proof (ingest_file_log content file_path coll) as Hlog.
  pose proof (ingest_file_count content file_path coll) as Hcount.
  rewrite Hnone in Hcount.
  rewrite (no_documents_no_call (submitted content file_path)) in Hlog.
  - rewrite app_nil_r in Hlog.
    destruct (ingest_file content file_path coll) as [coll' count].
    cbn [fst snd] in Hlog, Hcount. now subst.
  - apply submitted_calls_ok.
  - fold (submitted_documents content file_path).
    now rewrite submitted_documents_parsed.
Qed.

Lemma ingest_file_returns_count_witness :
  let blank := py "   " in
  let bundle := py "intro" ++ [NL] ++ SEPARATOR ++ [NL] ++ py "FILE: a.py" in
  (parsed_chunks blank = []
   /\ ingest_file blank (py "docs/blank.txt") [] = ([], 0))
  /\ (parsed_chunks bundle = []
      /\ ingest_file bundle (py "docs/bundle.txt") [] = ([], 0)).
Proof.
  cbv zeta. split.
  - split; [vm_compute; reflexivity|].
    apply (ingest_file_returns_count (py "   ") (py "docs/blank.txt") []).
    vm_compute. reflexivity.
  - split; [vm_compute; reflexivity|].
    apply (ingest_file_returns_count
             (py "intro" ++ [NL] ++ SEPARATOR ++ [NL] ++ py "FILE: a.py")
             (py "docs/bundle.txt") []).
    vm_compute. reflexivity.
Defined.

(** ** Identifiers *)

Section IdentifierFacts.

Lemma Forall2_imap_same {A B C} (R : B -> C -> Prop)
    (f : nat -> A -> B) (g : nat -> A -> C) (l : list A) :
  (forall i x, R (f i x) (g i x)) -> Forall2 R (imap f l) (imap g l).
Proof.
  revert f g. induction l as [|x l IH]; intros f g H; simpl.
  - constructor.
  - constructor; [apply H|]. apply IH. intros i y. apply H.
Qed.

Lemma awesome_group_rows file_name original_file chunks :
  Forall2 bundle_id_row
          (all_ids (awesome_group file_name original_file chunks))
          (all_metadatas (awesome_group file_name original_file chunks)).
Proof.
  apply Forall2_imap_same. intros i _. exists file_name, i.
  unfold awesome_metadata, awesome_id. split; [apply lookup_insert_eq|].
  split; [|reflexivity].
  rewrite !lookup_insert_ne by discriminate. apply lookup_insert_eq.
Qed.

Lemma single_group_rows file_path chunks :
  Forall2 (single_id_row file_path)
          (all_ids (single_group file_path chunks))
          (all_metadatas (single_group file_path chunks)).
Proof.
  apply Forall2_imap_same. intros i _. exists i.
  unfold single_metadata, single_id. split; [apply lookup_insert_eq|].
  split; [|reflexivity].
  rewrite !lookup_insert_ne by discriminate. apply lookup_insert_eq.
Qed.

Lemma pconcat_rows (R : str -> gmap string value -> Prop) groups :
  Forall (fun g => Forall2 R (all_ids g) (all_metadatas g)) groups ->
  Forall2 R (all_ids (pconcat groups)) (all_metadatas (pconcat groups)).
Proof.
  induction 1 as [|g groups Hg _ IH]; simpl; [constructor|].
  now apply Forall2_app.
Qed.

Lemma awesome_prepared_rows content source_path :
  Forall2 bundle_id_row (all_ids (awesome_prepared content source_path))
          (all_metadatas (awesome_prepared content source_path)).
Proof.
  unfold awesome_prepared. rewrite awesome_blocks_from, papp_no_chunks_l.
  apply pconcat_rows, Forall_forall. intros g Hg.
  apply elem_of_lookup_imap_1 in Hg as (j & b & -> & _).
  unfold block_group.
  destruct (parse_block (0 + j) b) as [[file_name file_content]|].
  - apply awesome_group_rows.
  - constructor.
Qed.

End IdentifierFacts.

(** C6. Chunk by chunk, the identifiers handed to the store are the
    described ones, in the order of the chunks. In a bundle, the chunk at
    index [i] of a block gets the name of that block (the [source] of its
    metadata record) with every [/] replaced by [_], followed by [_] and
    [i]; for a single file, the chunk at index [i] gets the base name of
    the path with every [.] replaced by [_], followed by [_] and [i]. The
    identifier of every chunk agrees with the [source] and the [chunk_id]
    of the metadata record submitted with it. Two ingestions of the same
    content under paths with the same base name submit the same
    identifiers, in the same order. *)
Theorem chunk_identifiers (content file_path : str) :
  submitted_documents content file_path = parsed_chunks content
  /\ submitted_ids content file_path = described_ids content file_path
  /\ (if contains content SEPARATOR
      then Forall2 bundle_id_row (submitted_ids content file_path)
                   (submitted_metadatas content file_path)
      else Forall2 (single_id_row file_path)
                   (submitted_ids content file_path)
                   (submitted_metadatas content file_path))
  /\ forall file_path' : str,
       basename file_path' = basename file_path ->
       submitted_ids content file_path' = submitted_ids content file_path.
Proof.
  split; [apply submitted_documents_parsed|].
  split; [apply submitted_ids_described|]. split.
  - destruct (contains content SEPARATOR) eqn:Hc.
    + destruct (submitted_awesome_columns content file_path Hc)
        as (_ & -> & ->).
      apply awesome_prepared_rows.
    + destruct (submitted_single_columns content file_path Hc)
        as (_ & -> & ->).
      apply single_group_rows.
  - intros file_path' Hbase. rewrite !submitted_ids_described.
    unfold described_ids. now rewrite Hbase.
Qed.

Lemma chunk_identifiers_witness :
  let bundle :=
    py "FILE: src/app.py" ++ [NL] ++ py "x = 1" ++ [NL] ++ SEPARATOR
    ++ [NL] ++ py "notes" ++ [NL] ++ py "hello" in
  (basename (py "upload/all.txt") = basename (py "data/all.txt")
   /\ submitted_ids bundle (py "upload/all.txt")
      = submitted_ids bundle (py "data/all.txt")
   /\ submitted_ids bundle (py "data/all.txt")
      = [py "src_app.py_0"; py "section_1_0"])
  /\ (basename (py "upload/notes.v2.md") = basename (py "data/notes.v2.md")
      /\ submitted_ids (py "alpha beta") (py "upload/notes.v2.md")
         = submitted_ids (py "alpha beta") (py "data/notes.v2.md")
      /\ submitted_ids (py "alpha beta") (py "data/notes.v2.md")
         = [py "notes_v2_md_0"]).
Proof.
  cbv zeta. split.
  - destruct (chunk_identifiers
                (py "FILE: src/app.py" ++ [NL] ++ py "x = 1" ++ [NL]
                 ++ SEPARATOR ++ [NL] ++ py "notes" ++ [NL] ++ py "hello")
                (py "data/all.txt")) as (_ & Hids & _ & Hsame).
    split; [vm_compute; reflexivity|]. split.
    + apply Hsame. vm_compute. reflexivity.
    + rewrite Hids. vm_compute. reflexivity.
  - destruct (chunk_identifiers (py "alpha beta") (py "data/notes.v2.md"))
      as (_ & Hids & _ & Hsame).
    split; [vm_compute; reflexivity|]. split.
    + apply Hsame. vm_compute. reflexivity.
    + rewrite Hids. vm_compute. reflexivity.
Defined.

(** ** Retrieval and the context block *)

Section JoinFacts.

Lemma join_cons sep p rest :
  rest <> [] -> join sep (p :: rest) = p ++ sep ++ join sep rest.
Proof. destruct rest; [congruence | reflexivity]. Qed.

Lemma join_app sep l1 l2 :
  l1 <> [] -> l2 <> [] ->
  join sep (l1 ++ l2) = join sep l1 ++ sep ++ join sep l2.
Proof.
  intros H1 H2. induction l1 as [|p l1 IH]; [congruence|].
  destruct l1 as [|q l1].
  - simpl app. now rewrite join_cons.
  - rewrite <- app_comm_cons, !join_cons by discriminate.
    rewrite IH by discriminate. now rewrite <- !app_assoc.
Qed.

End JoinFacts.

Section SearchFacts.

Lemma search_rows_seq docs metas n i sources :
  (i + n <= length docs)%nat -> (i + n <= length metas)%nat ->
  search_rows docs metas (seq i n) sources
  = Some (sources ++ zip_with Source (take n (drop i docs))
                                     (take n (drop i metas))).
Proof.
  revert i sources. induction n as [|n IH]; intros i sources Hd Hm.
  - simpl. now rewrite app_nil_r.
  - cbn [seq search_rows].
    destruct (lookup_lt_is_Some_2 docs i ltac:(lia)) as [d Hdi].
    destruct (lookup_lt_is_Some_2 metas i ltac:(lia)) as [m Hmi].
    rewrite Hdi, Hmi, IH by lia.
    rewrite (drop_S docs d i Hdi), (drop_S metas m i Hmi).
    cbn [take zip_with]. now rewrite <- app_assoc.
Qed.

Lemma zip_with_take_longer {A B C} (f : A -> B -> C) (l : list A)
    (k : list B) :
  zip_with f l (take (length l) k) = zip_with f l k.
Proof.
  revert k. induction l as [|x l IH]; intros [|y k]; simpl; try reflexivity.
  now rewrite IH.
Qed.

End SearchFacts.

(** C9. [generate_answer] sends the prompt built around the context block,
    and the context block is the retrieved chunks in retrieval order, each
    as the line [Source: <source, or unknown when the metadata has none>]
    followed by the chunk's text, with a blank line between two entries;
    [chat] retrieves the rows of the store's answer in order and returns one
    name and content pair per row, in that order. *)
Theorem context_and_sources_in_retrieval_order
    (query : str -> Z -> list str * list (gmap string value))
    (generate_content : str -> str) (question : str)
    (docs : list str) (metas : list (gmap string value)) :
  query question 5 = (docs, metas) ->
  (length docs <= length metas)%nat ->
  let retrieved := zip_with Source docs metas in
  (forall context_docs : list source,
     generate_answer generate_content question context_docs
     = generate_content (build_prompt question (build_context context_docs)))
  /\ build_context [] = []
  /\ (forall d : source,
        build_context [d]
        = py "Source: "
          ++ format_value (default (VStr (py "unknown"))
                                   (metadata d !! "source"))
          ++ [NL] ++ content d)
  /\ (forall ds1 ds2 : list source, ds1 <> [] -> ds2 <> [] ->
        build_context (ds1 ++ ds2)
        = build_context ds1 ++ [NL; NL] ++ build_context ds2)
  /\ search query question 5 = Some retrieved
  /\ chat query generate_content question
     = Some (generate_content
               (build_prompt question (build_context retrieved)),
             format_source <$> retrieved)
  /\ length (format_source <$> retrieved) = length docs
  /\ (forall i d m, docs !! i = Some d -> metas !! i = Some m ->
        (format_source <$> retrieved) !! i
        = Some (FormattedSource (default (VStr (py "unknown")) (m !! "source"))
                                d)).
Proof.
  intros Hq Hlen retrieved.
  assert (Hsearch : search query question 5 = Some retrieved).
  { unfold search. rewrite Hq.
    rewrite search_rows_seq by (simpl; lia).
    rewrite !drop_0, take_ge by lia. simpl. f_equal.
    apply zip_with_take_longer. }
  split; [reflexivity|]. split; [reflexivity|]. split; [reflexivity|].
  split.
  { intros ds1 ds2 H1 H2. unfold build_context. rewrite fmap_app.
    apply join_app; now destruct ds1, ds2. }
  split; [exact Hsearch|]. split.
  { unfold chat. now rewrite Hsearch. }
  split.
  { rewrite length_fmap. unfold retrieved. rewrite length_zip_with. lia. }
  intros i d m Hd Hm. rewrite list_lookup_fmap. unfold retrieved.
  rewrite lookup_zip_with, Hd. simpl. rewrite Hm. reflexivity.
Qed.

Lemma context_and_sources_witness :
  let query := fun (_ : str) (_ : Z) =>
    ([py "first chunk"; py "second chunk"],
     [({[ "source" := VStr (py "a.py") ]} : gmap string value); ∅]) in
  chat query (fun prompt => prompt) (py "why?")
  = Some (build_prompt (py "why?")
            (py "Source: a.py" ++ [NL] ++ py "first chunk" ++ [NL; NL]
             ++ py "Source: unknown" ++ [NL] ++ py "second chunk"),
          [FormattedSource (VStr (py "a.py")) (py "first chunk");
           FormattedSource (VStr (py "unknown")) (py "second chunk")]).
Proof.
  cbv zeta.
  pose proof (context_and_sources_in_retrieval_order
                (fun (_ : str) (_ : Z) =>
                   ([py "first chunk"; py "second chunk"],
                    [({[ "source" := VStr (py "a.py") ]}
                      : gmap string value); ∅]))
                (fun prompt => prompt) (py "why?")
                [py "first chunk"; py "second chunk"]
                [({[ "source" := VStr (py "a.py") ]} : gmap string value); ∅]
                eq_refl ltac:(simpl; lia)) as (_ & _ & _ & _ & _ & Hchat & _).
  rewrite Hchat. vm_compute. reflexivity.
Defined.

(** ** Every visible character lands in a chunk *)

Section CoverFacts.

Lemma forallb_false_lookup (f : N -> bool) (s : str) (i : nat) (c : N) :
  s !! i = Some c -> f c = false -> forallb f s = false.
Proof.
  intros Hi Hc. destruct (forallb f s) eqn:E; [|reflexivity].
  rewrite forallb_forall in E. rewrite <- Hc. symmetry. apply E.
  apply list_elem_of_In. eapply list_elem_of_lookup_2. exact Hi.
Qed.

Lemma forallb_false_exists (f : N -> bool) (s : str) :
  forallb f s = false -> exists i c, s !! i = Some c /\ f c = false.
Proof.
  induction s as [|x s IH]; simpl; [discriminate|].
  destruct (f x) eqn:E; simpl.
  - intros H. destruct (IH H) as (i & c & Hi & Hc). now exists (S i), c.
  - intros _. now exists O, x.
Qed.

Variable text : str.
Variables chunk_size overlap : Z.
Hypothesis chunk_size_pos : 0 < chunk_size.
Hypothesis overlap_nonneg : 0 <= overlap.
Hypothesis overlap_half : overlap <= chunk_size / 2.

Variable p : nat.
Variable c : N.
Hypothesis at_p : text !! p = Some c.
Hypothesis visible : is_space c = false.

(** A pass that starts at or before [p] either takes the character at [p]
    into its chunk or ends at or before [p]. *)
Lemma chunk_at_covers start :
  0 <= start <= Z.of_nat p ->
  forallb is_space (chunk_at text chunk_size start).1 = false
  \/ (chunk_at text chunk_size start).2 <= Z.of_nat p.
Proof.
  intros [Hs Hp]. pose proof (lookup_lt_Some _ _ _ at_p) as Hlen.
  unfold chunk_at. set (candidate := slice text start (start + chunk_size)).
  assert (Hcand : forall j : nat,
             (Z.of_nat j < chunk_size) ->
             candidate !! j = text !! (Z.to_nat start + j)%nat).
  { intros j Hj. unfold candidate. rewrite slice_inside by lia.
    unfold len. rewrite (Z.min_l start) by lia.
    destruct (decide (Z.to_nat start + j < length text)%nat) as [Hin|Hout].
    - rewrite lookup_take_lt by lia. apply lookup_drop.
    - rewrite (lookup_ge_None_2 text) by lia.
      apply lookup_ge_None_2. rewrite length_take, length_drop. lia. }
  destruct (start + chunk_size <? len text).
  - destruct (Z.gtb_spec (rfind candidate NL) (chunk_size / 2)) as [Hgt|Hle].
    + pose proof (half_nonneg chunk_size ltac:(lia)) as Hh.
      pose proof (rfind_range candidate NL) as Hr.
      pose proof (slice_len_le text start (start + chunk_size) ltac:(lia))
        as Hcl. fold candidate in Hcl.
      destruct (rfind_found candidate NL ltac:(lia)) as [Hnl _].
      rewrite Hcand in Hnl by lia.
      cbn [fst snd].
      destruct (Z.lt_trichotomy (Z.of_nat p) (start + rfind candidate NL))
        as [Hlt|[Heq|Hgt']].
      * left. rewrite slice_prefix by lia.
        apply (forallb_false_lookup _ _ (p - Z.to_nat start) c);
          [|exact visible].
        rewrite lookup_take_lt by lia. rewrite Hcand by lia.
        rewrite <- at_p. f_equal. lia.
      * replace (Z.to_nat start + Z.to_nat (rfind candidate NL))%nat
          with p in Hnl by lia.
        rewrite at_p in Hnl. injection Hnl as ->. discriminate.
      * right. lia.
    + cbn [fst snd].
      destruct (Z.le_gt_cases (start + chunk_size) (Z.of_nat p));
        [now right|].
      left. apply (forallb_false_lookup _ _ (p - Z.to_nat start) c);
        [|exact visible].
      rewrite Hcand by lia. rewrite <- at_p. f_equal. lia.
  - cbn [fst snd].
    destruct (Z.le_gt_cases (start + chunk_size) (Z.of_nat p));
      [now right|].
    left. apply (forallb_false_lookup _ _ (p - Z.to_nat start) c);
      [|exact visible].
    rewrite Hcand by lia. rewrite <- at_p. f_equal. lia.
Qed.

Lemma split_loop_covers fuel start chunks r :
  0 <= start ->
  Exists (fun x => x <> []) chunks \/ start <= Z.of_nat p ->
  split_loop fuel text chunk_size overlap start chunks = Some r ->
  Exists (fun x => x <> []) r.
Proof.
  revert start chunks.
  induction fuel as [|fuel IH]; intros start chunks Hs Hinv Hr;
    [discriminate|].
  pose proof (lookup_lt_Some _ _ _ at_p) as Hlen.
  cbn [split_loop] in Hr.
  destruct (Z.ltb_spec start (len text)) as [Hlt|Hge].
  - pose proof (chunk_at_progress text chunk_size overlap start
                  chunk_size_pos overlap_half) as Hprog.
    pose proof (chunk_at_covers start) as Hcov.
    destruct (chunk_at text chunk_size start) as [chunk end_].
    cbn [fst snd] in *.
    apply (IH (end_ - overlap) (chunks ++ [strip chunk])); [lia | | exact Hr].
    destruct Hinv as [Hex|Hp].
    + left. apply Exists_app. now left.
    + destruct (Hcov ltac:(lia)) as [Hvis|Hend].
      * left. apply Exists_app. right. constructor.
        intros E. apply strip_nil_iff in E. congruence.
      * right. lia.
  - injection Hr as <-. destruct Hinv as [Hex|Hp]; [exact Hex|].
    unfold len in Hge. lia.
Qed.

End CoverFacts.

(** A text with a character that is not whitespace gives at least one
    chunk. *)
Lemma pipeline_chunks_nonempty (text : str) :
  forallb is_space text = false -> pipeline_chunks text <> [].
Proof.
  intros Hvis. apply forallb_false_exists in Hvis as (p & c & Hp & Hc).
  pose proof (pipeline_chunks_spec text (S (length text)) ltac:(lia)) as Hspec.
  unfold _split_into_chunks in Hspec.
  destruct (split_loop (S (length text)) text chunk_size_3000 overlap_300 0 [])
    as [r|] eqn:Er; [|discriminate].
  injection Hspec as <-.
  assert (Hex : Exists (fun x : list N => x <> []) r).
  { apply (split_loop_covers text chunk_size_3000 overlap_300
             ltac:(reflexivity) ltac:(discriminate) ltac:(discriminate)
             p c Hp Hc (S (length text)) 0 [] r); [lia | right; lia | exact Er]. }
  apply Exists_exists in Hex as (x & Hin & Hx).
  intros E. assert (Hin' : In x (List.filter nonempty r)).
  { apply List.filter_In. split; [now apply list_elem_of_In|].
    now destruct x. }
  rewrite E in Hin'. contradiction.
Qed.

(** ** [split], [join] and [replace] *)

Section SplitFacts.

Lemma startswith_prefix s pre :
  startswith s pre = true -> s = pre ++ drop (length pre) s.
Proof.
  unfold startswith. revert s.
  induction pre as [|x pre IH]; intros s H; [reflexivity|].
  destruct s as [|y s]; [discriminate|]. simpl in H.
  apply andb_true_iff in H as [Hxy H]. apply N.eqb_eq in Hxy as ->.
  simpl. f_equal. now apply IH.
Qed.

Lemma split_go_not_nil sep s skip cur : split_go sep s skip cur <> [].
Proof.
  revert skip cur. induction s as [|x s IH]; intros skip cur.
  - intros H. inversion H.
  - cbn [split_go]. destruct skip; [|apply IH].
    destruct (startswith (x :: s) sep); [|apply IH].
    intros H. inversion H.
Qed.

(** Joining the fields of a split with the separator gives the string
    back. *)
Lemma join_split_go sep s skip cur :
  sep <> [] ->
  join sep (split_go sep s skip cur) = reverse cur ++ drop skip s.
Proof.
  intros Hsep. revert skip cur.
  induction s as [|x s IH]; intros skip cur.
  - simpl. now rewrite drop_nil, app_nil_r.
  - cbn [split_go]. destruct skip as [|k]; [|apply IH].
    destruct (startswith (x :: s) sep) eqn:E.
    + rewrite join_cons by apply split_go_not_nil. rewrite IH.
      apply startswith_prefix in E.
      destruct sep as [|y sep]; [congruence|].
      simpl length in *.
      replace (S (length sep) - 1)%nat with (length sep) by lia.
      simpl drop in *. rewrite E. reflexivity.
    + rewrite IH. rewrite reverse_cons, <- app_assoc. reflexivity.
Qed.

Lemma join_split s sep : sep <> [] -> join sep (split s sep) = s.
Proof. intros H. unfold split. now rewrite join_split_go. Qed.

Lemma replace_go_skip old new s k :
  replace_go old new s k = replace_go old new (drop k s) O.
Proof.
  revert k. induction s as [|x s IH]; intros [|k]; try reflexivity.
  simpl. apply IH.
Qed.

Lemma replace_absent s old new :
  contains s old = false -> replace s old new = s.
Proof.
  unfold replace. induction s as [|x s IH]; intros H; [reflexivity|].
  cbn [contains] in H. apply orb_false_iff in H as [Hs Hc].
  cbn [replace_go]. rewrite Hs. f_equal. now apply IH.
Qed.

(** Replacing a prefix that does not occur again removes just it. *)
Lemma replace_prefix_once s old :
  old <> [] -> startswith s old = true ->
  contains (drop (length old) s) old = false ->
  replace s old [] = drop (length old) s.
Proof.
  intros Hold Hs Hc. unfold replace. destruct s as [|x s].
  - now rewrite drop_nil.
  - cbn [replace_go]. rewrite Hs. simpl app. rewrite replace_go_skip.
    destruct old as [|y old]; [congruence|].
    simpl length in *.
    replace (S (length old) - 1)%nat with (length old) by lia.
    simpl drop in *. now apply replace_absent.
Qed.

End SplitFacts.

Section StripEnds.

Lemma lstrip_head s x rest : lstrip s = x :: rest -> is_space x = false.
Proof.
  induction s as [|y s IH]; simpl; [discriminate|].
  destruct (is_space y) eqn:E; [exact IH|].
  intros H. injection H as -> _. exact E.
Qed.

(** What [strip] leaves does not end with whitespace. *)
Lemma strip_last_visible s l x :
  strip s = l ++ [x] -> is_space x = false.
Proof.
  unfold strip, rstrip. intros H.
  apply (f_equal reverse) in H.
  rewrite reverse_involutive, reverse_snoc in H.
  now apply lstrip_head in H.
Qed.

(** If what [strip] leaves has a line break, something visible follows
    the first line. *)
Lemma strip_tail_visible s line body :
  strip s = line ++ [NL] ++ body -> forallb is_space body = false.
Proof.
  intros H. destruct body as [|y body] using rev_ind.
  - rewrite app_nil_r in H. apply strip_last_visible in H. discriminate.
  - rewrite !app_assoc in H. apply strip_last_visible in H.
    rewrite forallb_app. simpl. rewrite H.
    now rewrite andb_false_r.
Qed.

End StripEnds.

(** ** The blocks of a bundle *)

Section ParseBlockFacts.

Lemma NL_sep_not_nil : [NL] <> ([] : list N).
Proof. intros H. inversion H. Qed.

(** A block with at least two lines after trimming is parsed, and its
    body holds a visible character. *)
Lemma parse_block_two_lines file_idx b line0 line1 rest :
  split (strip b) [NL] = line0 :: line1 :: rest ->
  parse_block file_idx b
  = Some (if startswith (strip line0) FILE_PREFIX
          then strip (replace (strip line0) FILE_PREFIX [])
          else py "section_" ++ of_int (Z.of_nat file_idx),
          join [NL] (line1 :: rest))
  /\ forallb is_space (join [NL] (line1 :: rest)) = false
  /\ strip b <> [].
Proof.
  intros Hsplit.
  assert (Hne : strip b <> []).
  { intros E. rewrite E in Hsplit. inversion Hsplit. }
  split; [|split; [|exact Hne]].
  - unfold parse_block. rewrite Hsplit.
    destruct (strip b); [congruence | reflexivity].
  - pose proof (join_split (strip b) [NL] NL_sep_not_nil) as Hj.
    rewrite Hsplit, join_cons in Hj by (intros H; inversion H).
    symmetry in Hj. now apply strip_tail_visible in Hj.
Qed.

Lemma parse_block_one_line file_idx b :
  (length (split (strip b) [NL]) < 2)%nat -> parse_block file_idx b = None.
Proof.
  intros Hlen. unfold parse_block.
  destruct (nonempty (strip b)); [|reflexivity].
  destruct (split (strip b) [NL]) as [|line0 [|line1 rest]];
    [reflexivity | reflexivity | simpl in Hlen; lia].
Qed.

Lemma parse_block_blank file_idx b :
  strip b = [] -> parse_block file_idx b = None.
Proof. intros E. unfold parse_block. now rewrite E. Qed.

Lemma awesome_group_source file_name original_file chunks :
  Forall (fun m : gmap string value => m !! "source" = Some (VStr file_name))
         (all_metadatas (awesome_group file_name original_file chunks)).
Proof.
  apply Forall_forall. intros m Hm. cbn [awesome_group all_metadatas] in Hm.
  apply elem_of_lookup_imap_1 in Hm as (i & x & -> & _).
  apply lookup_insert_eq.
Qed.

End ParseBlockFacts.

(** C2, as stated, fails: a block that is not empty after trimming but has
    a single line (here a lone [FILE:] header) is skipped by the test of
    line 58 and gives no logical document. *)
Lemma single_line_block_dropped :
  let content := SEPARATOR ++ [NL] ++ py "FILE: a.py" in
  contains content SEPARATOR = true
  /\ split content SEPARATOR = [[]; [NL] ++ py "FILE: a.py"]
  /\ strip ([NL] ++ py "FILE: a.py") <> []
  /\ parse_block 1 ([NL] ++ py "FILE: a.py") = None
  /\ submitted content (py "bundle.txt") = [].
Proof.
  cbv zeta. split; [reflexivity|]. split; [reflexivity|].
  split; [vm_compute; discriminate|]. split; vm_compute; reflexivity.
Qed.

(** C2, amended. For a content holding the separator, what is submitted is,
    block after block of the raw split, the group of each block. A block
    that is empty after trimming, or has fewer than two lines after
    trimming, gives nothing. Every other block gives exactly one logical
    document: a non-empty run of chunks that all carry the block's name as
    [source]; when the trimmed first line does not start with [FILE:] that
    name is [section_<i>], [i] being the block's position in the raw split,
    skipped blocks counted. *)
Theorem bundle_groups (content source_path : str) :
  contains content SEPARATOR = true ->
  let blocks := split content SEPARATOR in
  let original_file := basename source_path in
  Prepared (submitted_documents content source_path)
           (submitted_metadatas content source_path)
           (submitted_ids content source_path)
  = pconcat (imap (block_group original_file) blocks)
  /\ forall (i : nat) (b : str), blocks !! i = Some b ->
       (strip b = [] \/ (length (split (strip b) [NL]) < 2)%nat ->
        block_group original_file i b = no_chunks)
       /\ (strip b <> [] -> (2 <= length (split (strip b) [NL]))%nat ->
           exists file_name file_content : str,
             parse_block i b = Some (file_name, file_content)
             /\ block_group original_file i b
                = awesome_group file_name original_file
                                (pipeline_chunks file_content)
             /\ pipeline_chunks file_content <> []
             /\ Forall (fun m : gmap string value =>
                          m !! "source" = Some (VStr file_name))
                       (all_metadatas (block_group original_file i b))
             /\ (startswith (strip (hd [] (split (strip b) [NL]))) FILE_PREFIX
                 = false ->
                 file_name = py "section_" ++ of_int (Z.of_nat i))).
Proof.
  intros Hc blocks original_file. split.
  - destruct (submitted_awesome_columns content source_path Hc)
      as (-> & -> & ->).
    unfold awesome_prepared. fold blocks original_file.
    rewrite awesome_blocks_from, papp_no_chunks_l.
    now destruct (pconcat _).
  - intros i b _. split.
    + intros [Hblank|Hone]; unfold block_group.
      * now rewrite parse_block_blank.
      * now rewrite parse_block_one_line.
    + intros _ Htwo.
      destruct (split (strip b) [NL]) as [|line0 [|line1 rest]] eqn:Hsplit;
        [simpl in Htwo; lia | simpl in Htwo; lia |].
      destruct (parse_block_two_lines i b line0 line1 rest Hsplit)
        as (Hparse & Hvis & _).
      eexists _, _. split; [exact Hparse|].
      unfold block_group. rewrite Hparse.
      split; [reflexivity|]. split; [now apply pipeline_chunks_nonempty|].
      split; [apply awesome_group_source|].
      cbn [hd]. now intros ->.
Qed.

Lemma bundle_groups_witness :
  let content :=
    py "intro" ++ [NL] ++ py "text" ++ [NL] ++ SEPARATOR ++ [NL]
    ++ SEPARATOR ++ [NL] ++ py "notes" ++ [NL] ++ py "body" in
  split content SEPARATOR !! 2%nat = Some ([NL] ++ py "notes" ++ [NL] ++ py "body")
  /\ exists file_content : str,
       parse_block 2 ([NL] ++ py "notes" ++ [NL] ++ py "body")
       = Some (py "section_2", file_content).
Proof.
  cbv zeta. split; [vm_compute; reflexivity|].
  destruct (bundle_groups
              (py "intro" ++ [NL] ++ py "text" ++ [NL] ++ SEPARATOR ++ [NL]
               ++ SEPARATOR ++ [NL] ++ py "notes" ++ [NL] ++ py "body")
              (py "docs/bundle.txt") eq_refl) as [_ H].
  destruct (H 2%nat ([NL] ++ py "notes" ++ [NL] ++ py "body") eq_refl)
    as [_ H2].
  destruct H2 as (file_name & file_content & Hparse & _ & _ & _ & Hname).
  - vm_compute. discriminate.
  - vm_compute. lia.
  - exists file_content. rewrite Hparse, (Hname eq_refl). reflexivity.
Defined.

(** ** The [FILE:] header *)

(** C8. On a header that holds [FILE:] a second time, the name is not the
    remainder of the line after the prefix: [replace] removes every
    occurrence. *)
Theorem file_prefix_removed_everywhere :
  let header := py "FILE: lib/FILE:utils.py" in
  let block := header ++ [NL] ++ py "x = 1" in
  startswith (strip header) FILE_PREFIX = true
  /\ strip (drop (length FILE_PREFIX) (strip header)) = py "lib/FILE:utils.py"
  /\ parse_block 0 block = Some (py "lib/utils.py", py "x = 1").
Proof. cbv zeta. repeat split; vm_compute; reflexivity. Qed.

(** When [FILE:] occurs only as the prefix of the header, the name is the
    trimmed remainder of the header. *)
Lemma file_name_single_prefix file_idx b line0 line1 rest :
  split (strip b) [NL] = line0 :: line1 :: rest ->
  startswith (strip line0) FILE_PREFIX = true ->
  contains (drop (length FILE_PREFIX) (strip line0)) FILE_PREFIX = false ->
  parse_block file_idx b
  = Some (strip (drop (length FILE_PREFIX) (strip line0)),
          join [NL] (line1 :: rest)).
Proof.
  intros Hsplit Hpre Honce.
  destruct (parse_block_two_lines file_idx b line0 line1 rest Hsplit)
    as (-> & _ & _).
  rewrite Hpre, replace_prefix_once; [reflexivity | | exact Hpre | exact Honce].
  intros H. inversion H.
Qed.

(** ** The examples of the specification *)

Example two_chunks_of_3299 :
  pipeline_chunks (replicate 3299 97%N)
  = [replicate 3000 97%N; replicate 599 97%N].
Proof. vm_compute. reflexivity. Qed.

Example bundle_of_two_files :
  let content :=
    SEPARATOR ++ [NL] ++ py "FILE: a.py" ++ [NL] ++ py "print(1)" ++ [NL]
    ++ SEPARATOR ++ [NL] ++ py "FILE: b.py" ++ [NL] ++ py "print(2)" in
  submitted content (py "data/bundle.txt")
  = [AddCall [py "print(1)"; py "print(2)"]
       [awesome_metadata (py "a.py") (py "bundle.txt") 0 1;
        awesome_metadata (py "b.py") (py "bundle.txt") 0 1]
       [py "a.py_0"; py "b.py_0"]].
Proof. vm_compute. reflexivity. Qed.

(** * Further properties *)

(** ** What [strip] removes and keeps *)

Section StripShape.

Lemma lstrip_split s :
  exists sp, s = sp ++ lstrip s /\ forallb is_space sp = true.
Proof.
  induction s as [|c s (sp & E & Hsp)]; [now exists []|]. simpl.
  destruct (is_space c) eqn:Ec.
  - exists (c :: sp). simpl. rewrite Ec, Hsp. split; [now f_equal | reflexivity].
  - now exists [].
Qed.

Lemma rstrip_split s :
  exists sp, s = rstrip s ++ sp /\ forallb is_space sp = true.
Proof.
  unfold rstrip. destruct (lstrip_split (reverse s)) as (sp & E & Hsp).
  exists (reverse sp). split.
  - rewrite <- reverse_app, <- E. now rewrite reverse_involutive.
  - now rewrite forallb_reverse.
Qed.

Lemma lstrip_fixed s :
  match s with [] => True | c :: _ => is_space c = false end ->
  lstrip s = s.
Proof. destruct s as [|c s]; [reflexivity|]. simpl. now intros ->. Qed.

Lemma lstrip_idemp s : lstrip (lstrip s) = lstrip s.
Proof.
  apply lstrip_fixed. destruct (lstrip s) as [|c r] eqn:E; [exact I|].
  now apply lstrip_head in E.
Qed.

Lemma rstrip_idemp s : rstrip (rstrip s) = rstrip s.
Proof. unfold rstrip. now rewrite reverse_involutive, lstrip_idemp. Qed.

(** After [strip] the first and the last character are visible, so a second
    [strip] changes nothing. *)
Lemma strip_idemp s : strip (strip s) = strip s.
Proof.
  unfold strip at 1. 
  assert (Hl : lstrip (strip s) = strip s).
  { apply lstrip_fixed. unfold strip.
    destruct (rstrip_split (lstrip s)) as (sp & E & _).
    destruct (rstrip (lstrip s)) as [|c r] eqn:Er; [exact I|].
    destruct (lstrip s) as [|c' r'] eqn:El; [destruct sp; discriminate|].
    injection E as -> _. now apply lstrip_head in El. }
  rewrite Hl. unfold strip. apply rstrip_idemp.
Qed.

Lemma substring_refl s : substring s s.
Proof. exists [], []. now rewrite app_nil_r. Qed.

Lemma substring_trans a b c : substring a b -> substring b c -> substring a c.
Proof.
  intros (p1 & q1 & ->) (p2 & q2 & ->). exists (p2 ++ p1), (q1 ++ q2).
  now rewrite <- !app_assoc.
Qed.

Lemma substring_take_drop (s : str) n m : substring (take n (drop m s)) s.
Proof.
  exists (take m s), (drop n (drop m s)).
  now rewrite take_drop, take_drop.
Qed.

Lemma substring_slice (s : str) a b : substring (slice s a b) s.
Proof. unfold slice. apply substring_take_drop. Qed.

Lemma substring_strip s : substring (strip s) s.
Proof.
  unfold strip. destruct (lstrip_split s) as (sp1 & E1 & _).
  destruct (rstrip_split (lstrip s)) as (sp2 & E2 & _).
  exists sp1, sp2. now rewrite <- E2.
Qed.

Lemma substring_blank a b :
  substring a b -> forallb is_space b = true -> forallb is_space a = true.
Proof.
  intros (p & q & ->). rewrite !forallb_app.
  intros H. apply andb_true_iff in H as [_ H].
  now apply andb_true_iff in H as [H _].
Qed.

End StripShape.

(** ** More on [_split_into_chunks] *)

Section ChunkShape.

Variable text : str.
Variables chunk_size overlap : Z.

Lemma chunk_at_substring start :
  substring (chunk_at text chunk_size start).1 text.
Proof.
  unfold chunk_at.
  destruct (start + chunk_size <? len text); [|apply substring_slice].
  destruct (rfind (slice text start (start + chunk_size)) NL
            >? chunk_size / 2); simpl; [|apply substring_slice].
  eapply substring_trans; apply substring_slice.
Qed.

(** The chunks before the final filter, whatever the fuel. *)
Lemma split_loop_blank fuel start chunks r :
  forallb is_space text = true ->
  Forall (fun c => c = []) chunks ->
  split_loop fuel text chunk_size overlap start chunks = Some r ->
  Forall (fun c => c = []) r.
Proof.
  intros Hblank. apply split_loop_Forall. intros s.
  apply strip_nil_iff. eapply substring_blank; [|exact Hblank].
  apply chunk_at_substring.
Qed.

End ChunkShape.

(** X1. Every chunk that [_split_into_chunks] returns is non-empty and
    trimmed: it neither starts nor ends with whitespace, so trimming it
    again changes nothing. *)
Theorem chunks_trimmed_nonempty (text : str) (chunk_size overlap : Z)
    (fuel : nat) (r : list str) :
  _split_into_chunks fuel text chunk_size overlap = Some r ->
  Forall (fun c => c <> [] /\ strip c = c) r.
Proof.
  intros Hr. unfold _split_into_chunks in Hr.
  destruct (split_loop fuel text chunk_size overlap 0 []) as [l|] eqn:El;
    [|discriminate].
  apply (inj Some) in Hr. subst r.
  assert (Hl : Forall (fun c => strip c = c) l).
  { eapply split_loop_Forall; [| constructor | exact El].
    intros start. apply strip_idemp. }
  apply List.Forall_forall. intros c Hc.
  apply List.filter_In in Hc as [Hc Hne]. split.
  - now destruct c.
  - revert c Hc Hne. rewrite <- List.Forall_forall.
    eapply Forall_impl; [exact Hl|]. now intros c ->.
Qed.

Lemma chunks_trimmed_nonempty_witness :
  Forall (fun c => c <> [] /\ strip c = c)
         [py "alpha"; py "beta  ga"; py "gamma"].
Proof.
  apply (chunks_trimmed_nonempty
           (py "  alpha   " ++ [NL] ++ py " beta  gamma ") 12 2 9).
  vm_compute. reflexivity.
Defined.

(** X2. Every chunk that [_split_into_chunks] returns is a run of
    consecutive characters of the text: nothing is inserted, replaced or
    reordered. *)
Theorem chunks_are_substrings (text : str) (chunk_size overlap : Z)
    (fuel : nat) (r : list str) :
  _split_into_chunks fuel text chunk_size overlap = Some r ->
  Forall (fun c => substring c text) r.
Proof.
  intros Hr. unfold _split_into_chunks in Hr.
  destruct (split_loop fuel text chunk_size overlap 0 []) as [l|] eqn:El;
    [|discriminate].
  apply (inj Some) in Hr. subst r.
  assert (Hl : Forall (fun c => substring c text) l).
  { eapply split_loop_Forall; [| constructor | exact El].
    intros start. eapply substring_trans; [apply substring_strip|].
    apply chunk_at_substring. }
  apply List.Forall_forall. intros c Hc.
  apply List.filter_In in Hc as [Hc _].
  revert c Hc. now apply List.Forall_forall.
Qed.

Lemma chunks_are_substrings_witness :
  Forall (fun c => substring c (py "  alpha   " ++ [NL] ++ py " beta  gamma "))
         [py "alpha"; py "beta  ga"; py "gamma"].
Proof.
  apply (chunks_are_substrings
           (py "  alpha   " ++ [NL] ++ py " beta  gamma ") 12 2 9).
  vm_compute. reflexivity.
Defined.

(** X3. With [chunk_size > 0] and [0 <= overlap <= chunk_size // 2] (the
    callers' 3000/300 are such), [_split_into_chunks] returns no chunk at
    all exactly when the text is empty or all whitespace: a text with one
    visible character always gives at least one chunk. *)
Theorem no_chunk_iff_blank (text : str) (chunk_size overlap : Z)
    (fuel : nat) :
  0 < chunk_size -> 0 <= overlap <= chunk_size / 2 ->
  (length text < fuel)%nat ->
  (_split_into_chunks fuel text chunk_size overlap = Some []
   <-> forallb is_space text = true).
Proof.
  intros Hcs [Hov Hhalf] Hfuel.
  destruct (split_loop_total text chunk_size overlap Hcs Hhalf fuel 0 [])
    as [l Hl]; [unfold len; lia|].
  unfold _split_into_chunks. rewrite Hl. simpl. split.
  - intros Hnil. apply (inj Some) in Hnil.
    destruct (forallb is_space text) eqn:Hvis; [reflexivity|].
    apply forallb_false_exists in Hvis as (p & c & Hp & Hc).
    assert (Hex : Exists (fun x : list N => x <> []) l).
    { apply (split_loop_covers text chunk_size overlap Hcs Hov Hhalf
               p c Hp Hc fuel 0 [] l); [lia | right; lia | exact Hl]. }
    apply Exists_exists in Hex as (x & Hin & Hx).
    assert (Hin' : In x (List.filter nonempty l)).
    { apply List.filter_In. split; [now apply list_elem_of_In|].
      now destruct x. }
    rewrite Hnil in Hin'. contradiction.
  - intros Hblank. f_equal.
    pose proof (split_loop_blank text chunk_size overlap fuel 0 [] l Hblank
                  ltac:(constructor) Hl) as Hall.
    clear Hl. induction Hall as [|x l' -> _ IH]; [reflexivity|]. exact IH.
Qed.

Lemma no_chunk_iff_blank_witness :
  _split_into_chunks 7 ([32%N; 9%N; NL; 160%N; 32%N; NL]) 3000 300 = Some [].
Proof.
  apply (no_chunk_iff_blank [32%N; 9%N; NL; 160%N; 32%N; NL] 3000 300 7).
  - lia.
  - vm_compute. split; discriminate.
  - simpl. lia.
  - vm_compute. reflexivity.
Defined.

Section ChunkCount.

Variable text : str.
Variables chunk_size overlap : Z.
Hypothesis chunk_size_pos : 0 < chunk_size.
Hypothesis overlap_half : overlap <= chunk_size / 2.

Lemma min_advance_pos : 1 <= min_advance chunk_size overlap.
Proof.
  unfold min_advance. pose proof (half_lt chunk_size chunk_size_pos). lia.
Qed.

Lemma chunk_at_advance start :
  start + min_advance chunk_size overlap
  <= (chunk_at text chunk_size start).2 - overlap.
Proof.
  unfold min_advance, chunk_at.
  destruct (start + chunk_size <? len text); [|simpl; lia].
  destruct (Z.gtb_spec (rfind (slice text start (start + chunk_size)) NL)
                       (chunk_size / 2)) as [Hgt|Hle]; simpl; lia.
Qed.

(** Each pass starts at least [min_advance] further than the one before, and
    a pass only runs from a [start] inside the text. *)
Lemma split_loop_count fuel start chunks r :
  Z.of_nat (length chunks) * min_advance chunk_size overlap <= start ->
  (chunks <> [] ->
   (Z.of_nat (length chunks) - 1) * min_advance chunk_size overlap
   < len text) ->
  split_loop fuel text chunk_size overlap start chunks = Some r ->
  Z.of_nat (length r) * min_advance chunk_size overlap
  < len text + min_advance chunk_size overlap.
Proof.
  pose proof min_advance_pos as Hd.
  revert start chunks. induction fuel as [|fuel IH];
    intros start chunks Hinv Hlast Hr; [discriminate|].
  cbn [split_loop] in Hr.
  destruct (Z.ltb_spec start (len text)) as [Hlt|Hge].
  - pose proof (chunk_at_advance start) as Hadv.
    destruct (chunk_at text chunk_size start) as [chunk end_].
    cbn [snd] in Hadv.
    apply IH in Hr; [exact Hr | |]; rewrite length_app; simpl length.
    + lia.
    + intros _. lia.
  - apply (inj Some) in Hr. subst r. pose proof (len_nonneg text).
    destruct chunks as [|c chunks]; [simpl; lia|].
    specialize (Hlast ltac:(discriminate)). lia.
Qed.

End ChunkCount.

(** X4. With [chunk_size > 0] and [0 <= overlap <= chunk_size // 2], the
    number [k] of chunks returned for a text of [n] characters satisfies
    [k * d < n + d], where [d] is the least advance of a pass; with the
    callers' 3000/300, [d = 1201], so at most [ceil(n / 1201)] chunks. *)
Theorem chunk_count_bound (text : str) (chunk_size overlap : Z)
    (fuel : nat) (r : list str) :
  0 < chunk_size -> 0 <= overlap <= chunk_size / 2 ->
  _split_into_chunks fuel text chunk_size overlap = Some r ->
  Z.of_nat (length r) * min_advance chunk_size overlap
  < len text + min_advance chunk_size overlap.
Proof.
  intros Hcs [_ Hhalf] Hr. unfold _split_into_chunks in Hr.
  destruct (split_loop fuel text chunk_size overlap 0 []) as [l|] eqn:El;
    [|discriminate].
  apply (inj Some) in Hr. subst r.
  pose proof (split_loop_count text chunk_size overlap Hcs Hhalf fuel 0 [] l
                ltac:(simpl; lia) ltac:(congruence) El) as Hl.
  pose proof (min_advance_pos chunk_size overlap Hcs Hhalf) as Hd.
  pose proof (List.filter_length_le nonempty l) as Hf.
  nia.
Qed.

Lemma chunk_count_bound_witness :
  min_advance 3000 300 = 1201
  /\ Z.of_nat (length (pipeline_chunks (replicate 2800 97%N))) * 1201
     < 2800 + 1201.
Proof.
  split; [reflexivity|].
  apply (chunk_count_bound (replicate 2800 97%N) 3000 300 2801
           (pipeline_chunks (replicate 2800 97%N))).
  - lia.
  - vm_compute. split; discriminate.
  - vm_compute. reflexivity.
Defined.

Section Coverage.

Variable text : str.
Variables chunk_size overlap : Z.
Hypothesis chunk_size_pos : 0 < chunk_size.
Hypothesis overlap_nonneg : 0 <= overlap.
Hypothesis overlap_half : overlap <= chunk_size / 2.

(** From a [start] inside the text, the chunk of a pass is the slice from
    [start] to the [end] the pass settles on. *)
Lemma chunk_at_is_slice start :
  0 <= start < len text ->
  (chunk_at text chunk_size start).1
  = slice text start (chunk_at text chunk_size start).2
  /\ (chunk_at text chunk_size start).2 <= start + chunk_size.
Proof.
  intros [Hs Hlt]. unfold chunk_at.
  destruct (Z.ltb_spec (start + chunk_size) (len text)) as [Hend|Hend];
    [|simpl; split; [reflexivity | lia]].
  set (candidate := slice text start (start + chunk_size)).
  destruct (Z.gtb_spec (rfind candidate NL) (chunk_size / 2)) as [Hgt|Hle];
    [|simpl; split; [reflexivity | lia]].
  cbn [fst snd]. pose proof (half_nonneg chunk_size ltac:(lia)) as Hh.
  pose proof (rfind_range candidate NL) as Hr.
  pose proof (slice_len_le text start (start + chunk_size) ltac:(lia)) as Hc.
  fold candidate in Hc. split; [|lia].
  remember (rfind candidate NL) as ln eqn:Eln. clear Eln.
  rewrite slice_prefix by lia. unfold candidate.
  rewrite !slice_inside by lia.
  rewrite !(Z.min_l start), !Z.min_l by lia.
  rewrite take_take. f_equal. lia.
Qed.

Lemma slice_lookup (p : nat) (c : N) s e :
  0 <= s <= Z.of_nat p -> Z.of_nat p < e ->
  text !! p = Some c ->
  slice text s e !! (p - Z.to_nat s)%nat = Some c.
Proof.
  intros [Hs Hp] He Hc. pose proof (lookup_lt_Some _ _ _ Hc) as Hlen.
  rewrite slice_inside by lia. unfold len.
  rewrite (Z.min_l s) by lia.
  rewrite lookup_take_lt by lia. rewrite lookup_drop, <- Hc. f_equal. lia.
Qed.

Variable p : nat.
Variable c : N.
Hypothesis at_p : text !! p = Some c.
Hypothesis visible : is_space c = false.

(** [x] is the trimmed slice of a pass that takes position [p] in. *)
Let around_p (x : str) : Prop :=
  exists s e : Z,
    0 <= s <= Z.of_nat p /\ Z.of_nat p < e <= s + chunk_size
    /\ x = strip (slice text s e).

Lemma split_loop_around fuel start chunks r :
  0 <= start ->
  Exists around_p chunks \/ start <= Z.of_nat p ->
  split_loop fuel text chunk_size overlap start chunks = Some r ->
  Exists around_p r.
Proof.
  revert start chunks.
  induction fuel as [|fuel IH]; intros start chunks Hs Hinv Hr;
    [discriminate|].
  pose proof (lookup_lt_Some _ _ _ at_p) as Hlen.
  cbn [split_loop] in Hr.
  destruct (Z.ltb_spec start (len text)) as [Hlt|Hge].
  - pose proof (chunk_at_progress text chunk_size overlap start
                  chunk_size_pos overlap_half) as Hprog.
    destruct (chunk_at_is_slice start ltac:(lia)) as [Hslice Hend].
    destruct (chunk_at text chunk_size start) as [chunk end_].
    cbn [fst snd] in *.
    apply (IH (end_ - overlap) (chunks ++ [strip chunk])); [lia | | exact Hr].
    destruct Hinv as [Hex|Hp].
    + left. apply Exists_app. now left.
    + destruct (Z.lt_ge_cases (Z.of_nat p) end_) as [Hin|Hout].
      * left. apply Exists_app. right. constructor.
        exists start, end_. subst chunk. repeat split; lia.
      * right. lia.
  - apply (inj Some) in Hr. subst r. destruct Hinv as [Hex|Hp]; [exact Hex|].
    unfold len in Hge. lia.
Qed.

Lemma around_p_nonempty x : around_p x -> x <> [].
Proof.
  intros (s & e & Hs & He & ->) E. apply strip_nil_iff in E.
  pose proof (slice_lookup p c s e Hs ltac:(lia) at_p) as Hl.
  pose proof (forallb_false_lookup is_space _ _ _ Hl visible). congruence.
Qed.

Lemma split_covers_position fuel r :
  _split_into_chunks fuel text chunk_size overlap = Some r ->
  exists s e : Z,
    0 <= s <= Z.of_nat p /\ Z.of_nat p < e <= s + chunk_size
    /\ In (strip (slice text s e)) r.
Proof.
  intros Hr. unfold _split_into_chunks in Hr.
  destruct (split_loop fuel text chunk_size overlap 0 []) as [l|] eqn:El;
    [|discriminate].
  apply (inj Some) in Hr. subst r.
  pose proof (split_loop_around fuel 0 [] l ltac:(lia) ltac:(right; lia) El)
    as Hex.
  apply Exists_exists in Hex as (x & Hin & Hx).
  pose proof (around_p_nonempty x Hx) as Hne.
  destruct Hx as (s & e & Hs & He & ->).
  exists s, e. split; [exact Hs|]. split; [exact He|].
  apply List.filter_In. split; [now apply list_elem_of_In|].
  now destruct (strip (slice text s e)).
Qed.

End Coverage.

(** X5. With [chunk_size > 0] and [0 <= overlap <= chunk_size // 2], no
    visible character is lost: for every position [p] of the text that holds
    a character that is not whitespace, one of the returned chunks is the
    trimmed slice [text[s:e]] of a pass with [s <= p < e]. *)
Theorem visible_characters_covered (text : str) (chunk_size overlap : Z)
    (fuel : nat) (r : list str) (p : nat) (c : N) :
  0 < chunk_size -> 0 <= overlap <= chunk_size / 2 ->
  _split_into_chunks fuel text chunk_size overlap = Some r ->
  text !! p = Some c -> is_space c = false ->
  exists s e : Z,
    0 <= s <= Z.of_nat p /\ Z.of_nat p < e <= s + chunk_size
    /\ In (strip (slice text s e)) r.
Proof.
  intros Hcs [Hov Hhalf] Hr Hp Hc.
  now apply (split_covers_position text chunk_size overlap Hcs Hov Hhalf
               p c Hp Hc fuel r).
Qed.

Lemma visible_characters_covered_witness :
  exists s e : Z,
    0 <= s <= 18 /\ 18 < e <= s + 12
    /\ In (strip (slice (py "  alpha   " ++ [NL] ++ py " beta  gamma ") s e))
          [py "alpha"; py "beta  ga"; py "gamma"].
Proof.
  apply (visible_characters_covered
           (py "  alpha   " ++ [NL] ++ py " beta  gamma ") 12 2 9
           [py "alpha"; py "beta  ga"; py "gamma"] 18 103%N).
  - lia.
  - vm_compute. split; discriminate.
  - vm_compute. reflexivity.
  - vm_compute. reflexivity.
  - vm_compute. reflexivity.
Defined.

(** ** More on the blocks of a bundle *)

Section FirstLine.

Lemma startswith_one (x c : N) (s : str) :
  startswith (x :: s) [c] = (x =? c)%N.
Proof. unfold startswith. simpl. destruct s; apply andb_true_r. Qed.

(** The first field of a split on one character does not hold that
    character. *)
Lemma split_go_first c s cur f fields :
  split_go [c] s O cur = f :: fields -> ~ In c cur -> ~ In c f.
Proof.
  revert cur. induction s as [|x s IH]; intros cur Hsplit Hcur.
  - simpl in Hsplit. injection Hsplit as <- _.
    intros Hin. apply Hcur. apply list_elem_of_In.
    apply list_elem_of_In in Hin. now rewrite elem_of_reverse in Hin.
  - cbn [split_go] in Hsplit. rewrite startswith_one in Hsplit.
    destruct (N.eqb_spec x c) as [->|Hne].
    + injection Hsplit as <- _.
      intros Hin. apply Hcur. apply list_elem_of_In.
      apply list_elem_of_In in Hin. now rewrite elem_of_reverse in Hin.
    + apply (IH (x :: cur)); [exact Hsplit|].
      intros [E|Hin]; [congruence | contradiction].
Qed.

Lemma split_first c s f fields : split s [c] = f :: fields -> ~ In c f.
Proof. intros H. apply (split_go_first c s [] f fields H). intros []. Qed.

(** A text splits on a character into two fields or more exactly when it
    holds that character. *)
Lemma split_one_field_iff c s :
  (length (split s [c]) < 2)%nat <-> ~ In c s.
Proof.
  assert (Hsep : [c] <> ([] : list N)) by (intros H; inversion H).
  pose proof (join_split s [c] Hsep) as Hj.
  destruct (split s [c]) as [|f [|g rest]] eqn:Hs.
  - exfalso. now apply (split_go_not_nil [c] s O []).
  - cbn [join] in Hj. subst f. split; [|simpl; lia].
    intros _. now apply split_first in Hs.
  - rewrite join_cons in Hj by (intros H; inversion H).
    split; [simpl; lia|]. intros Hno. exfalso. apply Hno.
    rewrite <- Hj. apply in_or_app. right. now left.
Qed.

End FirstLine.

(** X6. A block of a bundle is dropped exactly when its trimmed text holds
    no line break (an empty or a one-line block). Otherwise its trimmed
    text is the first line, a line break and the body: the body handed to
    the chunker is everything after the first line break. The name is, when
    the trimmed first line starts with [FILE:], that line with every
    [FILE:] removed and trimmed again, and [section_<i>] otherwise; the
    first line serves for the name only, so it is never indexed. *)
Theorem parse_block_first_line_and_body (file_idx : nat)
    (file_block : str) :
  (parse_block file_idx file_block = None <-> ~ In NL (strip file_block))
  /\ forall file_name file_content : str,
       parse_block file_idx file_block = Some (file_name, file_content) ->
       exists line0 : str,
         strip file_block = line0 ++ [NL] ++ file_content
         /\ ~ In NL line0
         /\ file_name
            = (if startswith (strip line0) FILE_PREFIX
               then strip (replace (strip line0) FILE_PREFIX [])
               else py "section_" ++ of_int (Z.of_nat file_idx)).
Proof.
  split.
  - rewrite <- split_one_field_iff. unfold parse_block.
    destruct (strip file_block) as [|x s] eqn:Hstrip.
    + cbn [nonempty]. split; [intros _; vm_compute; lia | reflexivity].
    + cbn [nonempty].
      destruct (split (x :: s) [NL]) as [|line0 [|line1 rest]];
        cbn [length]; split; intros H;
        try reflexivity; try discriminate; lia.
  - unfold parse_block. intros file_name file_content H.
    destruct (nonempty (strip file_block)); [|discriminate].
    destruct (split (strip file_block) [NL]) as [|line0 [|line1 rest]]
      eqn:Hs; try discriminate.
    apply (inj Some) in H. injection H as <- <-.
    exists line0. split; [|split; [|reflexivity]].
    + pose proof (join_split (strip file_block) [NL] NL_sep_not_nil) as Hj.
      rewrite Hs, join_cons in Hj by (intros E; inversion E).
      now symmetry.
    + now apply split_first in Hs.
Qed.

Lemma parse_block_first_line_and_body_witness :
  exists line0 : str,
    strip (py " Overview " ++ [NL] ++ py "first" ++ [NL] ++ py "second  ")
    = line0 ++ [NL] ++ (py "first" ++ [NL] ++ py "second")
    /\ ~ In NL line0
    /\ py "section_3"
       = (if startswith (strip line0) FILE_PREFIX
          then strip (replace (strip line0) FILE_PREFIX [])
          else py "section_" ++ of_int (Z.of_nat 3)).
Proof.
  apply (proj2 (parse_block_first_line_and_body 3
                  (py " Overview " ++ [NL] ++ py "first" ++ [NL]
                   ++ py "second  "))).
  vm_compute. reflexivity.
Defined.

(** ** Metadata *)

Section MetadataFacts.

Lemma pconcat_metadatas (P : gmap string value -> Prop) groups :
  Forall (fun g => Forall P (all_metadatas g)) groups ->
  Forall P (all_metadatas (pconcat groups)).
Proof.
  induction 1 as [|g groups Hg _ IH]; simpl; [constructor|].
  now apply Forall_app_2.
Qed.

Lemma awesome_group_metadata content original_file file_idx file_block
    file_name file_content :
  split content SEPARATOR !! file_idx = Some file_block ->
  parse_block file_idx file_block = Some (file_name, file_content) ->
  Forall (bundle_record content original_file)
         (all_metadatas (awesome_group file_name original_file
                                       (pipeline_chunks file_content))).
Proof.
  intros Hblock Hparse. apply Forall_forall. intros m Hm.
  cbn [awesome_group all_metadatas] in Hm.
  apply elem_of_lookup_imap_1 in Hm as (i & x & -> & Hx).
  apply lookup_lt_Some in Hx.
  exists file_idx, file_block, file_name, file_content, i.
  split; [exact Hblock|]. split; [exact Hparse|]. split; [exact Hx|].
  reflexivity.
Qed.

Lemma awesome_prepared_metadata content source_path :
  Forall (bundle_record content (basename source_path))
         (all_metadatas (awesome_prepared content source_path)).
Proof.
  unfold awesome_prepared. rewrite awesome_blocks_from, papp_no_chunks_l.
  apply pconcat_metadatas, Forall_forall. intros g Hg.
  apply elem_of_lookup_imap_1 in Hg as (j & b & -> & Hb).
  unfold block_group. cbn [Nat.add].
  destruct (parse_block j b) as [[file_name file_content]|] eqn:Hparse.
  - now apply (awesome_group_metadata content _ j b).
  - constructor.
Qed.

End MetadataFacts.



(** ** More on identifiers *)

Section IdFacts.

Lemma py_inj s1 s2 : py s1 = py s2 -> s1 = s2.
Proof.
  unfold py. intros H.
  assert (Hl : list_ascii_of_string s1 = list_ascii_of_string s2).
  { revert H. generalize (list_ascii_of_string s1) (list_ascii_of_string s2).
    induction l as [|a l IH]; intros [|b l'] H; try discriminate;
      [reflexivity|].
    injection H as Hab Hl. f_equal; [|now apply IH].
    rewrite <- (ascii_N_embedding a), <- (ascii_N_embedding b).
    now rewrite Hab. }
  rewrite <- (string_of_list_ascii_of_string s1),
          <- (string_of_list_ascii_of_string s2).
  now rewrite Hl.
Qed.

Lemma of_int_inj a b : of_int a = of_int b -> a = b.
Proof. unfold of_int. intros H. apply py_inj in H. now apply (inj pretty). Qed.

Lemma NoDup_imap_index {A B} (f : nat -> B) (l : list A) :
  (forall i j, f i = f j -> i = j) -> NoDup (imap (fun i _ => f i) l).
Proof.
  intros Hinj. apply NoDup_alt. intros i j y Hi Hj.
  apply list_lookup_imap_Some in Hi as (x & _ & ->).
  apply list_lookup_imap_Some in Hj as (x' & _ & Hj).
  now apply Hinj.
Qed.

Lemma awesome_id_inj file_name i j :
  awesome_id file_name i = awesome_id file_name j -> i = j.
Proof.
  unfold awesome_id. intros H. apply app_inv_head in H.
  apply app_inv_head in H. apply of_int_inj in H. lia.
Qed.

Lemma single_id_inj file_path i j :
  single_id file_path i = single_id file_path j -> i = j.
Proof.
  unfold single_id. intros H. apply app_inv_head in H.
  apply app_inv_head in H. apply of_int_inj in H. lia.
Qed.

(** Replacing one character by another is a change character by
    character. *)
Lemma replace_one s a b :
  replace s [a] [b] = (fun c => if (c =? a)%N then b else c) <$> s.
Proof.
  unfold replace. induction s as [|x s IH]; [reflexivity|].
  cbn [replace_go]. rewrite startswith_one.
  change (length [a] - 1)%nat with O. rewrite IH, fmap_cons.
  now destruct (x =? a)%N.
Qed.

Lemma replace_one_idemp s a b :
  a <> b -> replace (replace s [a] [b]) [a] [b] = replace s [a] [b].
Proof.
  intros Hab. rewrite !replace_one, <- list_fmap_compose.
  apply list_fmap_ext. intros _ x _. simpl.
  destruct (N.eqb_spec x a) as [->|Hne].
  - destruct (N.eqb_spec b a); [congruence | reflexivity].
  - destruct (N.eqb_spec x a); [congruence | reflexivity].
Qed.

Lemma replace_one_gone s a b : a <> b -> ~ In a (replace s [a] [b]).
Proof.
  intros Hab. rewrite replace_one. intros Hin.
  apply in_map_iff in Hin as (x & Hx & _).
  destruct (N.eqb_spec x a); congruence.
Qed.

(** The base name holds no slash, and the base name of a path without slash
    is the path. *)
Lemma basename_no_slash p : ~ In 47%N (basename p).
Proof.
  unfold basename. pose proof (rfind_range p 47%N) as Hr.
  destruct (Z.eq_dec (rfind p 47%N) (-1)) as [E|Hne].
  - rewrite E. simpl. intros Hin. apply list_elem_of_In in Hin.
    apply list_elem_of_lookup in Hin as [j Hj].
    unfold rfind in E.
    apply (rfind_from_negative 47%N p 0 ltac:(lia) ltac:(lia) j Hj).
  - destruct (rfind_found p 47%N ltac:(lia)) as [_ Hlast].
    intros Hin. apply list_elem_of_In in Hin.
    apply list_elem_of_lookup in Hin as [j Hj]. rewrite lookup_drop in Hj.
    apply (Hlast (Z.to_nat (rfind p 47%N + 1) + j)%nat); [lia | exact Hj].
Qed.

Lemma basename_plain p : ~ In 47%N p -> basename p = p.
Proof.
  intros Hno. unfold basename, rfind. rewrite rfind_from_absent; [reflexivity|].
  intros j Hj. apply Hno. apply list_elem_of_In.
  eapply list_elem_of_lookup_2. exact Hj.
Qed.

(** The decimal form of a natural number holds no underscore. *)
Lemma pretty_N_char_not_underscore x : pretty_N_char x <> "_"%char.
Proof.
  destruct x as [|p]; [discriminate|].
  do 4 (try (destruct p as [p|p|]; try (cbv; discriminate))).
Qed.

Lemma pretty_N_go_no_underscore x s :
  ~ In "_"%char (list_ascii_of_string s) ->
  ~ In "_"%char (list_ascii_of_string (pretty_N_go x s)).
Proof.
  revert s. induction (N.lt_wf_0 x) as [x _ IH]. intros s Hs.
  destruct (N.eq_dec x 0%N) as [->|Hx].
  - now rewrite pretty_N_go_0.
  - rewrite pretty_N_go_step by lia. apply IH.
    + apply N.div_lt; lia.
    + cbn [list_ascii_of_string]. intros [E|Hin]; [|contradiction].
      now apply (pretty_N_char_not_underscore (x `mod` 10)%N).
Qed.

Lemma of_int_no_underscore (i : nat) : ~ In 95%N (of_int (Z.of_nat i)).
Proof.
  unfold of_int, py. intros Hin.
  apply in_map_iff in Hin as (a & Ha & Hin).
  assert (E : a = "_"%char).
  { rewrite <- (ascii_N_embedding a), Ha. reflexivity. }
  subst a. revert Hin. unfold pretty, pretty_Z.
  destruct (Z.of_nat i) as [|q|q] eqn:Ei; [| |lia].
  - cbn. intros [H|[]]. discriminate.
  - unfold pretty, pretty_positive, pretty, pretty_N.
    destruct (decide (N.pos q = 0%N)); [discriminate|].
    apply pretty_N_go_no_underscore. intros [].
Qed.

(** A text ending with an underscore and a run without underscore is cut
    in one way only. *)
Lemma last_underscore_split (x y d1 d2 : str) :
  ~ In 95%N d1 -> ~ In 95%N d2 ->
  x ++ [95%N] ++ d1 = y ++ [95%N] ++ d2 -> x = y /\ d1 = d2.
Proof.
  intros H1 H2. revert y. induction x as [|a x IH]; intros [|b y] E.
  - now injection E.
  - exfalso. injection E as <- E. apply H1. rewrite E.
    apply in_or_app. right. now left.
  - exfalso. injection E as -> E. apply H2. rewrite <- E.
    apply in_or_app. right. now left.
  - injection E as <- E. destruct (IH y E) as [-> ->]. now split.
Qed.

Lemma described_id_eq_iff name1 name2 old i j :
  described_id name1 old i = described_id name2 old j
  <-> replace name1 old (py "_") = replace name2 old (py "_") /\ i = j.
Proof.
  unfold described_id. split.
  - intros E. apply last_underscore_split in E as [Hn Hd];
      try apply of_int_no_underscore.
    split; [exact Hn|]. apply of_int_inj in Hd. lia.
  - intros [-> ->]. reflexivity.
Qed.

End IdFacts.

(** X8. The identifiers submitted for a single file are pairwise distinct,
    and so are the identifiers of the chunks of one block of a bundle (two
    blocks of a bundle may still share identifiers). *)
Theorem identifiers_distinct (content file_path : str) :
  (if contains content SEPARATOR then True
   else NoDup (submitted_ids content file_path))
  /\ forall (file_idx : nat) (file_block : str),
       NoDup (all_ids (block_group (basename file_path) file_idx file_block)).
Proof.
  split.
  - destruct (contains content SEPARATOR) eqn:Hc; [exact I|].
    destruct (submitted_single_columns content file_path Hc) as (_ & _ & ->).
    cbn [single_group all_ids]. apply NoDup_imap_index.
    apply single_id_inj.
  - intros file_idx file_block. unfold block_group.
    destruct (parse_block file_idx file_block) as [[file_name file_content]|].
    + cbn [awesome_group all_ids]. apply NoDup_imap_index.
      apply awesome_id_inj.
    + constructor.
Qed.

(** X9. Two identifiers coincide exactly when the chunk indexes are equal
    and the names are equal once the replaced character is replaced: [/] in
    the name of a block of a bundle, [.] in the base name of a single file.
    So identifiers do not tell apart two names that differ only by that
    character against [_], whatever the two names are; in particular two
    single files with such base names and the same content submit the same
    identifiers. *)
Theorem normalised_names_collide (name1 name2 path1 path2 : str)
    (i j : nat) :
  (awesome_id name1 i = awesome_id name2 j
   <-> replace name1 (py "/") (py "_") = replace name2 (py "/") (py "_")
       /\ i = j)
  /\ (single_id path1 i = single_id path2 j
      <-> replace (basename path1) (py ".") (py "_")
          = replace (basename path2) (py ".") (py "_")
          /\ i = j)
  /\ forall content : str,
       contains content SEPARATOR = false ->
       replace (basename path1) (py ".") (py "_")
       = replace (basename path2) (py ".") (py "_") ->
       submitted_ids content path1 = submitted_ids content path2.
Proof.
  split; [apply (described_id_eq_iff name1 name2 (py "/"))|].
  split; [apply (described_id_eq_iff (basename path1) (basename path2)
                   (py "."))|].
  intros content Hc Hnames.
  destruct (submitted_single_columns content path1 Hc) as (_ & _ & ->).
  destruct (submitted_single_columns content path2 Hc) as (_ & _ & ->).
  cbn [single_group all_ids]. apply imap_ext. intros k x _.
  unfold single_id. now rewrite Hnames.
Qed.

Lemma normalised_names_collide_witness :
  basename (py "docs/a.b_c") <> basename (py "docs/a_b.c")
  /\ single_id (py "docs/a.b_c") 4 = single_id (py "docs/a_b.c") 4
  /\ submitted_ids (py "alpha beta") (py "docs/a.b_c")
     = submitted_ids (py "alpha beta") (py "docs/a_b.c").
Proof.
  destruct (normalised_names_collide [] [] (py "docs/a.b_c")
              (py "docs/a_b.c") 4 4) as (_ & Hid & Hsub).
  split; [vm_compute; discriminate|]. split.
  - apply Hid. split; vm_compute; reflexivity.
  - apply Hsub; vm_compute; reflexivity.
Defined.

(** ** More on the ingestion of a bundle *)

(** X10. A bundle ingestion submits the prepared chunks in
    [ceil(n / 100)] calls of [add] (printed as [total_batches] when there is
    a chunk); call [k] carries the documents, metadata records and
    identifiers at positions [100 k .. 100 k + 99], so every call but the
    last carries exactly 100 chunks, the last one the remainder, and the
    calls put end to end give back the three prepared lists in order. *)
Theorem bundle_batches (content file_path : str) :
  contains content SEPARATOR = true ->
  let p := awesome_prepared content file_path in
  let n := length (all_documents p) in
  length (submitted content file_path) = ((n + 99) `div` 100)%nat
  /\ ((0 < n)%nat ->
      Z.of_nat (length (submitted content file_path)) = total_batches p)
  /\ (forall (k : nat) (c : add_call),
        submitted content file_path !! k = Some c ->
        c = AddCall (take 100 (drop (k * 100) (all_documents p)))
                    (take 100 (drop (k * 100) (all_metadatas p)))
                    (take 100 (drop (k * 100) (all_ids p)))
        /\ (1 <= length (documents c) <= 100)%nat
        /\ ((S k < length (submitted content file_path))%nat ->
            length (documents c) = 100%nat)
        /\ current_batch (k * 100) = S k)
  /\ submitted_documents content file_path = all_documents p
  /\ submitted_metadatas content file_path = all_metadatas p
  /\ submitted_ids content file_path = all_ids p.
Proof.
  intros Hc p n.
  assert (Hlen : length (submitted content file_path)
                 = ((n + 99) `div` 100)%nat).
  { rewrite (submitted_awesome _ _ Hc). fold p. fold n.
    unfold range_step, batch_size. rewrite !length_fmap, length_seq.
    f_equal. lia. }
  pose proof (Nat.div_mod (n + 99) 100 ltac:(lia)) as Hdiv.
  pose proof (Nat.mod_upper_bound (n + 99) 100 ltac:(lia)) as Hmod.
  split; [exact Hlen|]. split; [|split].
  - intros Hn. rewrite Hlen. unfold total_batches, batch_size, len. fold n.
    apply Z.le_antisymm.
    + assert (Z.of_nat ((n + 99) `div` 100) - 1 <= (Z.of_nat n - 1) / 100);
        [|lia].
      apply Z.div_le_lower_bound; lia.
    + assert ((Z.of_nat n - 1) / 100 < Z.of_nat ((n + 99) `div` 100));
        [|lia].
      apply Z.div_lt_upper_bound; lia.
  - intros k c Hk.
    destruct (bundle_batches_of_100 content file_path k c Hc Hk)
      as (Hcall & Hsize & Hbounds & Hnum & _).
    fold p in Hcall, Hsize. fold n in Hsize.
    split; [exact Hcall|]. split; [exact Hbounds|]. split; [|exact Hnum].
    intros Hnext. rewrite Hsize. rewrite Hlen in Hnext. lia.
  - apply (submitted_awesome_columns content file_path Hc).
Qed.

Lemma bundle_batches_witness :
  let content :=
    SEPARATOR ++ [NL] ++ py "FILE: a.py" ++ [NL] ++ py "print(1)" ++ [NL]
    ++ SEPARATOR ++ [NL] ++ py "FILE: b.py" ++ [NL] ++ py "print(2)" in
  length (submitted content (py "data/bundle.txt")) = 1%nat.
Proof.
  cbv zeta.
  apply (bundle_batches
           (SEPARATOR ++ [NL] ++ py "FILE: a.py" ++ [NL] ++ py "print(1)"
            ++ [NL] ++ SEPARATOR ++ [NL] ++ py "FILE: b.py" ++ [NL]
            ++ py "print(2)") (py "data/bundle.txt")).
  vm_compute. reflexivity.
Defined.

(** X11. A content that holds the separator is handled as a bundle even
    when none of its blocks has two lines after trimming; then every block
    is skipped, nothing is submitted and [ingest_file] returns 0, whatever
    text the blocks hold. *)
Theorem bundle_of_one_line_blocks_dropped (content file_path : str)
    (coll : list add_call) :
  contains content SEPARATOR = true ->
  Forall (fun b => (length (split (strip b) [NL]) < 2)%nat)
         (split content SEPARATOR) ->
  ingest_file content file_path coll = (coll, 0).
Proof.
  intros Hc Hall. unfold ingest_file. rewrite Hc.
  unfold _ingest_awesome_format.
  assert (Hp : awesome_blocks (basename file_path) O
                 (split content SEPARATOR) no_chunks = no_chunks).
  { generalize O. generalize (basename file_path). intros original_file.
    induction Hall as [|b blocks Hb _ IH]; intros i; [reflexivity|].
    cbn [awesome_blocks]. rewrite (parse_block_one_line i b Hb). apply IH. }
  rewrite Hp. reflexivity.
Qed.

Lemma bundle_of_one_line_blocks_dropped_witness :
  ingest_file (py "introduction" ++ SEPARATOR ++ py " conclusion ")
              (py "notes.txt") []
  = ([], 0).
Proof.
  apply (bundle_of_one_line_blocks_dropped
           (py "introduction" ++ SEPARATOR ++ py " conclusion ")
           (py "notes.txt") []).
  - vm_compute. reflexivity.
  - vm_compute. repeat constructor.
Defined.

(** ** Paths, and what an ingestion takes from the path *)

Section PathFacts.

Lemma last_at_app_r c a b k :
  last_at c b k -> last_at c (a ++ b) (length a + k).
Proof.
  intros [Hk Hlast]. split.
  - rewrite lookup_app_r by lia. now replace (length a + k - length a)%nat
      with k by lia.
  - intros j Hj. rewrite lookup_app_r by lia. apply Hlast. lia.
Qed.

Lemma rfind_absent_iff s c : rfind s c = -1 <-> ~ In c s.
Proof.
  split.
  - intros E Hin. apply list_elem_of_In in Hin.
    apply list_elem_of_lookup in Hin as [j Hj]. unfold rfind in E.
    apply (rfind_from_negative c s 0 ltac:(lia) ltac:(lia) j Hj).
  - intros Hno. unfold rfind. apply rfind_from_absent. intros j Hj.
    apply Hno, list_elem_of_In. eapply list_elem_of_lookup_2. exact Hj.
Qed.

(** The base name looks at what follows the last slash only. *)
Lemma basename_app_slash a b : basename (a ++ [47%N] ++ b) = basename b.
Proof.
  destruct (Z.eq_dec (rfind b 47%N) (-1)) as [E|Hne].
  - apply rfind_absent_iff in E. rewrite (basename_plain b E).
    unfold basename.
    assert (Hl : last_at 47%N (a ++ [47%N] ++ b) (length a)).
    { split.
      - rewrite lookup_app_r by lia. now rewrite Nat.sub_diag.
      - intros j Hj Hj'. rewrite lookup_app_r in Hj' by lia.
        destruct (j - length a)%nat as [|i] eqn:Ei; [lia|]. simpl in Hj'.
        apply E, list_elem_of_In. eapply list_elem_of_lookup_2. exact Hj'. }
    rewrite (rfind_last _ _ _ Hl).
    replace (Z.to_nat (Z.of_nat (length a) + 1)) with (length a + 1)%nat
      by lia.
    rewrite <- drop_drop, drop_app_length. reflexivity.
  - pose proof (rfind_range b 47%N) as Hr.
    pose proof (rfind_found b 47%N ltac:(lia)) as Hl.
    unfold basename at 2.
    apply (last_at_app_r _ (a ++ [47%N])) in Hl as Hl'.
    rewrite <- app_assoc in Hl'. unfold basename at 1.
    rewrite (rfind_last _ _ _ Hl'). rewrite length_app. simpl length.
    rewrite app_assoc.
    replace (Z.to_nat (Z.of_nat (length a + 1 + Z.to_nat (rfind b 47%N)) + 1))
      with (length (a ++ [47%N]) + Z.to_nat (rfind b 47%N + 1))%nat
      by (rewrite length_app; simpl; lia).
    rewrite <- drop_drop, drop_app_length. reflexivity.
Qed.

Lemma endswith_one s c :
  endswith s [c] = true -> exists a, s = a ++ [c].
Proof.
  unfold endswith. intros H. apply startswith_prefix in H.
  exists (reverse (drop 1 (reverse s))).
  rewrite <- (reverse_involutive s) at 1. rewrite H at 1.
  change (reverse [c]) with [c]. simpl length.
  now rewrite reverse_app.
Qed.

Lemma basename_path_join a b : basename (path_join a b) = basename b.
Proof.
  unfold path_join. change (py "/") with [47%N].
  destruct (startswith b [47%N]); [reflexivity|].
  destruct a as [|x a]; [reflexivity|]. cbn [nonempty negb orb].
  destruct (endswith (x :: a) [47%N]) eqn:E.
  - apply endswith_one in E as [a' ->]. rewrite <- app_assoc.
    apply basename_app_slash.
  - apply basename_app_slash.
Qed.

(** An ingestion uses the path through its base name only. *)
Lemma ingest_file_basename content p p' coll :
  basename p = basename p' ->
  ingest_file content p coll = ingest_file content p' coll.
Proof.
  intros Hb. unfold ingest_file, _ingest_awesome_format, _ingest_single_file.
  rewrite !single_chunks_group. unfold single_group, single_metadata,
    single_id. now rewrite Hb.
Qed.

End PathFacts.

(** X12. What is stored for an uploaded file does not depend on the
    temporary directory it is saved in: the base name of the temporary path
    is the base name of the uploaded file name, and the ingestion of the
    temporary path (chunks, metadata, identifiers, count) is the ingestion
    of the bare file name. *)
Theorem upload_directory_irrelevant (temp_dir file_name content : str)
    (coll : list add_call) :
  basename (path_join temp_dir file_name) = basename file_name
  /\ ingest_file content (path_join temp_dir file_name) coll
     = ingest_file content (basename file_name) coll.
Proof.
  split; [apply basename_path_join|].
  apply ingest_file_basename. rewrite basename_path_join.
  symmetry. apply basename_plain, basename_no_slash.
Qed.

(** ** The ingestion endpoints *)

Section EndpointFacts.

Lemma ingest_file_pair content file_path coll :
  ingest_file content file_path coll
  = (coll ++ submitted content file_path,
     chunks_in (submitted content file_path)).
Proof.
  rewrite (surjective_pairing (ingest_file content file_path coll)).
  rewrite ingest_file_log, ingest_file_count_indep. f_equal.
  unfold chunks_in. fold (submitted_documents content file_path).
  destruct (contains content SEPARATOR) eqn:Hc.
  - destruct (submitted_awesome_columns content file_path Hc) as (-> & _ & _).
    unfold ingest_file. rewrite Hc. reflexivity.
  - destruct (submitted_single_columns content file_path Hc) as (-> & _ & _).
    unfold ingest_file. rewrite Hc. reflexivity.
Qed.

Lemma chunks_in_app calls1 calls2 :
  chunks_in (calls1 ++ calls2) = chunks_in calls1 + chunks_in calls2.
Proof.
  unfold chunks_in, len. rewrite fmap_app, concat_app, length_app. lia.
Qed.

Variable read_text : str -> option str.

(** [results'] agrees with [results] but at the [.txt] names of [names],
    where it holds the count of the file of that name. *)
Let counted (names : list str) (results results' : gmap (list N) detail)
    : Prop :=
  forall f : str,
    results' !! f = results !! f
    \/ (f ∈ names /\ endswith f (py ".txt") = true
        /\ exists content,
             read_text (path_join DATA_DIR f) = Some content
             /\ results' !! f
                = Some (Count (chunks_in
                                 (submitted content
                                            (path_join DATA_DIR f))))).

Lemma start_ingest_loop_spec filenames total_files results coll coll' out :
  start_ingest_loop read_text filenames total_files results coll
  = (coll', out) ->
  exists calls,
    coll' = coll ++ calls
    /\ match out with
       | Some (total', results') =>
           total' = total_files + chunks_in calls
           /\ counted filenames results results'
           /\ forall f, f ∈ filenames -> endswith f (py ".txt") = true ->
                is_Some (results' !! f)
       | None =>
           exists f, f ∈ filenames /\ endswith f (py ".txt") = true
                     /\ read_text (path_join DATA_DIR f) = None
       end.
Proof.
  revert total_files results coll.
  induction filenames as [|filename rest IH];
    intros total_files results coll Hloop.
  - simpl in Hloop. injection Hloop as <- <-. exists [].
    rewrite app_nil_r. split; [reflexivity|].
    split; [unfold chunks_in, len; simpl; lia|].
    split; [intros f; now left|]. intros f Hf. now apply not_elem_of_nil in Hf.
  - cbn [start_ingest_loop] in Hloop.
    destruct (endswith filename (py ".txt")) eqn:Etxt.
    + unfold ingest_file_at in Hloop.
      destruct (read_text (path_join DATA_DIR filename)) as [content|] eqn:Er.
      * rewrite ingest_file_pair in Hloop.
        apply IH in Hloop as (calls & -> & Hout).
        exists (submitted content (path_join DATA_DIR filename) ++ calls).
        rewrite app_assoc. split; [reflexivity|].
        destruct out as [[total' results']|].
        -- destruct Hout as (-> & Hc & Hall). rewrite chunks_in_app.
           split; [lia|]. split.
           ++ intros f. destruct (Hc f) as [Hsame|(Hin & Hf & Hcount)].
              ** destruct (decide (f = filename)) as [->|Hne].
                 --- right. split; [left|]. split; [exact Etxt|].
                     exists content. split; [exact Er|].
                     now rewrite Hsame, lookup_insert_eq.
                 --- left. now rewrite Hsame, lookup_insert_ne.
              ** right. split; [now right|]. now split.
           ++ intros f Hf Htxt. apply elem_of_cons in Hf as [->|Hf];
                [|now apply Hall].
              destruct (Hc filename) as [Hsame|(_ & _ & c' & _ & Hc')].
              ** rewrite Hsame, lookup_insert_eq. eauto.
              ** rewrite Hc'. eauto.
        -- destruct Hout as (f & Hin & Hf & Hr). exists f.
           split; [now right|]. now split.
      * injection Hloop as <- <-. exists []. rewrite app_nil_r.
        split; [reflexivity|]. exists filename.
        split; [left|]. now split.
    + apply IH in Hloop as (calls & -> & Hout). exists calls.
      split; [reflexivity|]. destruct out as [[total' results']|].
      * destruct Hout as (-> & Hc & Hall). split; [reflexivity|]. split.
        -- intros f. destruct (Hc f) as [Hsame|(Hin & Hf & Hcount)];
             [now left|].
           right. split; [now right|]. now split.
        -- intros f Hf Htxt. apply elem_of_cons in Hf as [->|Hf];
             [congruence | now apply Hall].
      * destruct Hout as (f & Hin & Hf & Hr). exists f.
        split; [now right|]. now split.
Qed.

End EndpointFacts.

(** X13. [/ingest]. Without the data directory it answers the error status
    and the store is untouched. Otherwise, when it answers,
    [total_documents_indexed] is the number of chunks added to the store by
    the request, and [details] has exactly the listed names that end with
    [.txt], each with the count of its own file; names without that suffix
    are never read. When a file cannot be read the exception goes up
    unanswered, and what the files before it added stays in the store. *)
Theorem start_ingest_reports (read_text : str -> option str)
    (listing : option (list str)) (coll : list add_call) :
  exists calls : list add_call,
    (start_ingest read_text listing coll).1 = coll ++ calls
    /\ match listing, (start_ingest read_text listing coll).2 with
       | None, response =>
           calls = []
           /\ response
              = Some (StatusError (py "Data directory ../data not found"))
       | Some filenames, Some (StatusSuccess total details) =>
           total = chunks_in calls
           /\ forall f : str,
                match details !! f with
                | Some d =>
                    f ∈ filenames /\ endswith f (py ".txt") = true
                    /\ exists content,
                         read_text (path_join DATA_DIR f) = Some content
                         /\ d = Count (chunks_in
                                         (submitted content
                                            (path_join DATA_DIR f)))
                | None =>
                    ~ (f ∈ filenames /\ endswith f (py ".txt") = true)
                end
       | Some filenames, Some (StatusError _) => False
       | Some filenames, None =>
           exists f, f ∈ filenames /\ endswith f (py ".txt") = true
                     /\ read_text (path_join DATA_DIR f) = None
       end.
Proof.
  destruct listing as [filenames|].
  - unfold start_ingest.
    destruct (start_ingest_loop read_text filenames 0 ∅ coll)
      as [coll' out] eqn:Hloop.
    apply start_ingest_loop_spec in Hloop as (calls & -> & Hout).
    exists calls. destruct out as [[total' results']|]; cbn [fst snd].
    + split; [reflexivity|]. destruct Hout as (-> & Hc & Hall).
      split; [lia|]. intros f.
      destruct (Hc f) as [Hsame|(Hin & Hf & content & Hr & Hd)].
      * rewrite Hsame, lookup_empty. intros [Hin Hf].
        destruct (Hall f Hin Hf) as [d Hd]. rewrite Hsame in Hd.
        now rewrite lookup_empty in Hd.
      * rewrite Hd. split; [exact Hin|]. split; [exact Hf|].
        exists content. now split.
    + split; [reflexivity | exact Hout].
  - exists []. simpl. rewrite app_nil_r. repeat split.
Qed.

(** ** The upload endpoint *)

Section UploadFacts.

Context {B : Type}.
Variable write_file : nat -> str -> B -> option str.
Variable read_back : nat -> str -> B -> str + str.
Variable add_error : list add_call -> add_call -> option str.
Variable remove_file : nat -> str -> option str.

Lemma chunks_in_nonneg calls : 0 <= chunks_in calls.
Proof. unfold chunks_in, len. lia. Qed.

Lemma chunks_in_nil : chunks_in [] = 0.
Proof. reflexivity. Qed.

Lemma chunks_in_submitted content file_path :
  chunks_in (submitted content file_path) = len (parsed_chunks content).
Proof.
  unfold chunks_in. fold (submitted_documents content file_path).
  now rewrite submitted_documents_parsed.
Qed.

(** On a store that may raise, the batches are added up to the first that
    raises. *)
Lemma add_batches_or_raise_log p starts coll :
  exists n : nat,
    (add_batches_or_raise add_error p starts coll).1
    = coll ++ take n (batch_at p <$> starts)
    /\ ((add_batches_or_raise add_error p starts coll).2 = None ->
        (add_batches_or_raise add_error p starts coll).1
        = coll ++ (batch_at p <$> starts)).
Proof.
  revert coll. induction starts as [|i rest IH]; intros coll.
  - exists O. simpl. now rewrite app_nil_r.
  - cbn [add_batches_or_raise].
    destruct (add_error coll (batch_at p i)) as [message|].
    + exists O. cbn [fst snd take]. rewrite app_nil_r.
      split; [reflexivity | discriminate].
    + destruct (IH (coll ++ [batch_at p i])) as (n & Hn & Hall).
      exists (S n). rewrite fmap_cons. cbn [take]. split.
      * rewrite Hn, <- app_assoc. reflexivity.
      * intros Hnone. rewrite (Hall Hnone), <- app_assoc. reflexivity.
Qed.

(** An ingestion on a store that may raise makes the calls of the
    ingestion on a store that does not, up to the first that raises; when
    none raises it returns the number of parsed chunks. *)
Lemma ingest_file_or_raise_log content file_path coll :
  exists calls : list add_call,
    (ingest_file_or_raise add_error content file_path coll).1
    = coll ++ calls
    /\ match (ingest_file_or_raise add_error content file_path coll).2 with
       | inr count =>
           calls = submitted content file_path
           /\ count = len (parsed_chunks content)
       | inl _ => exists n : nat, calls = take n (submitted content file_path)
       end.
Proof.
  pose proof (ingest_file_count content file_path []) as Hcount.
  unfold ingest_file_or_raise. unfold ingest_file in Hcount.
  destruct (contains content SEPARATOR) eqn:Hc.
  - rewrite (submitted_awesome _ _ Hc).
    unfold _ingest_awesome_format_or_raise.
    unfold _ingest_awesome_format in Hcount. cbn [snd] in Hcount.
    fold (awesome_prepared content file_path) in Hcount |- *.
    set (p := awesome_prepared content file_path) in *.
    destruct (all_documents p) as [|c l] eqn:E.
    + exists []. cbn [nonempty fst snd]. rewrite app_nil_r.
      split; [reflexivity|]. split; [reflexivity | exact Hcount].
    + cbn [nonempty].
      destruct (add_batches_or_raise_log
                  p (range_step (length (c :: l)) batch_size) coll)
        as (n & Hn & Hall).
      destruct (add_batches_or_raise add_error p
                  (range_step (length (c :: l)) batch_size) coll)
        as [coll' [message|]].
      * cbn [fst snd] in *. eexists. split; [exact Hn|]. now exists n.
      * cbn [fst snd] in *. eexists. split; [exact (Hall eq_refl)|].
        split; [reflexivity | exact Hcount].
  - rewrite (submitted_single _ _ Hc).
    unfold _ingest_single_file_or_raise.
    unfold _ingest_single_file in Hcount. cbn [snd] in Hcount.
    rewrite single_chunks_group. cbn [single_group all_documents].
    destruct (pipeline_chunks content) as [|c l] eqn:E.
    + exists []. cbn [nonempty fst snd]. rewrite app_nil_r.
      split; [reflexivity|]. split; [reflexivity | exact Hcount].
    + cbn [nonempty].
      destruct (add_error coll _) as [message|].
      * exists []. cbn [fst snd]. rewrite app_nil_r.
        split; [reflexivity|]. now exists O.
      * eexists. cbn [fst snd]. split; [reflexivity|].
        split; [reflexivity | exact Hcount].
Qed.

(** The [try] block of one upload, whatever raises. *)
Lemma ingest_upload_general k file total results coll :
  exists (calls : list add_call) (counted : Z) (d : detail),
    ingest_upload B write_file read_back add_error remove_file k file total
                  results coll
    = (coll ++ calls, (total + counted, <[filename file := d]> results))
    /\ 0 <= counted <= chunks_in calls
    /\ forall n : Z,
         d = Count n ->
         exists content : str,
           write_file k (path_join TEMP_DIR (filename file)) (data file)
           = None
           /\ read_back k (path_join TEMP_DIR (filename file)) (data file)
              = inr content
           /\ remove_file k (path_join TEMP_DIR (filename file)) = None
           /\ n = len (parsed_chunks content).
Proof.
  unfold ingest_upload.
  destruct (write_file k _ (data file)) as [message|] eqn:Ew.
  { exists [], 0, (ErrorDetail message). rewrite app_nil_r, Z.add_0_r.
    split; [reflexivity|]. split; [rewrite chunks_in_nil; lia|].
    intros n Hd. discriminate. }
  destruct (read_back k _ (data file)) as [message|content] eqn:Er.
  { exists [], 0, (ErrorDetail message). rewrite app_nil_r, Z.add_0_r.
    split; [reflexivity|]. split; [rewrite chunks_in_nil; lia|].
    intros n Hd. discriminate. }
  destruct (ingest_file_or_raise_log
              content (path_join TEMP_DIR (filename file)) coll)
    as (calls & Hcalls & Hres).
  destruct (ingest_file_or_raise add_error content _ coll)
    as [coll' [message|count]].
  { cbn [fst snd] in *. exists calls, 0, (ErrorDetail message).
    rewrite Hcalls, Z.add_0_r. split; [reflexivity|].
    split; [pose proof (chunks_in_nonneg calls); lia|].
    intros n Hd. discriminate. }
  cbn [fst snd] in *. destruct Hres as (-> & ->).
  pose proof (chunks_in_submitted
                content (path_join TEMP_DIR (filename file))) as Hchunks.
  pose proof (chunks_in_nonneg
                (submitted content (path_join TEMP_DIR (filename file)))).
  destruct (remove_file k _) as [message|] eqn:Erm.
  - eexists _, _, (ErrorDetail message). rewrite Hcalls, insert_insert_eq.
    split; [reflexivity|]. split; [lia|].
    intros n Hd. discriminate.
  - eexists _, _, (Count _). rewrite Hcalls.
    split; [reflexivity|]. split; [lia|].
    intros n Hd. injection Hd as <-. now exists content.
Qed.

(** The loop over the uploads, whatever raises. *)
Lemma ingest_files_loop_general files k total results coll :
  exists (added : list add_call) (total' : Z)
         (results' : gmap (list N) detail),
    ingest_files_loop B write_file read_back add_error remove_file files k
                      total results coll
    = (coll ++ added, (total', results'))
    /\ total <= total' <= total + chunks_in added
    /\ (forall name : str,
          is_Some (results' !! name)
          <-> is_Some (results !! name)
              \/ exists file, file ∈ files /\ filename file = name)
    /\ forall (name : str) (n : Z),
         results' !! name = Some (Count n) ->
         results !! name = Some (Count n)
         \/ exists (j : nat) (file : upload B) (content : str),
              files !! j = Some file /\ filename file = name
              /\ write_file (k + j) (path_join TEMP_DIR name) (data file)
                 = None
              /\ read_back (k + j) (path_join TEMP_DIR name) (data file)
                 = inr content
              /\ remove_file (k + j) (path_join TEMP_DIR name) = None
              /\ n = len (parsed_chunks content).
Proof.
  revert k total results coll.
  induction files as [|file rest IH]; intros k total results coll.
  - exists [], total, results. cbn [ingest_files_loop].
    rewrite app_nil_r, chunks_in_nil. split; [reflexivity|].
    split; [lia|]. split.
    + intros name. split; [now left|].
      intros [H|(file & Hin & _)]; [exact H|].
      now apply not_elem_of_nil in Hin.
    + intros name n H. now left.
  - cbn [ingest_files_loop].
    destruct (ingest_upload_general k file total results coll)
      as (calls & counted & d & -> & Hcounted & Hd).
    destruct (IH (S k) (total + counted) (<[filename file := d]> results)
                 (coll ++ calls))
      as (added & total' & results' & -> & Htotal & Hkeys & Hcount).
    exists (calls ++ added), total', results'.
    rewrite app_assoc, chunks_in_app. split; [reflexivity|].
    split; [lia|]. split.
    + intros name. rewrite Hkeys. split.
      * intros [Hsome|(file' & Hin & Hname)].
        -- destruct (decide (filename file = name)) as [E|Hne].
           ++ right. exists file. split; [left | exact E].
           ++ left. now rewrite lookup_insert_ne in Hsome by exact Hne.
        -- right. exists file'. split; [now right | exact Hname].
      * intros [Hsome|(file' & Hin & Hname)].
        -- left. destruct (decide (filename file = name)) as [E|Hne].
           ++ rewrite E, lookup_insert_eq. eauto.
           ++ now rewrite lookup_insert_ne by exact Hne.
        -- apply elem_of_cons in Hin as [->|Hin].
           ++ left. rewrite Hname, lookup_insert_eq. eauto.
           ++ right. exists file'. now split.
    + intros name n Hn.
      destruct (Hcount name n Hn)
        as [Hold|(j & file' & content & Hj & Hname & Hw & Hr & Hrm & ->)].
      * destruct (decide (filename file = name)) as [E|Hne].
        -- rewrite E, lookup_insert_eq in Hold. apply (inj Some) in Hold.
           destruct (Hd n Hold) as (content & Hw & Hr & Hrm & ->).
           right. exists O, file, content. rewrite Nat.add_0_r, <- E.
           now repeat split.
        -- left. now rewrite lookup_insert_ne in Hold by exact Hne.
      * right. exists (S j), file', content.
        replace (k + S j)%nat with (S k + j)%nat by lia.
        now repeat split.
Qed.

Hypothesis add_never_raises : forall coll c, add_error coll c = None.

Lemma add_batches_or_raise_ok p starts coll :
  add_batches_or_raise add_error p starts coll
  = (add_batches p starts coll, None).
Proof.
  revert coll. induction starts as [|i rest IH]; intros coll;
    [reflexivity|].
  cbn [add_batches_or_raise add_batches]. now rewrite add_never_raises, IH.
Qed.

(** On a store that does not raise, the two models of [ingest_file]
    agree. *)
Lemma ingest_file_or_raise_ok content file_path coll :
  ingest_file_or_raise add_error content file_path coll
  = (coll ++ submitted content file_path,
     inr (chunks_in (submitted content file_path))).
Proof.
  pose proof (ingest_file_pair content file_path coll) as Hpair.
  unfold ingest_file_or_raise. unfold ingest_file in Hpair.
  destruct (contains content SEPARATOR).
  - unfold _ingest_awesome_format_or_raise.
    unfold _ingest_awesome_format in Hpair.
    rewrite add_batches_or_raise_ok.
    destruct (nonempty _); injection Hpair as <- <-; reflexivity.
  - unfold _ingest_single_file_or_raise.
    unfold _ingest_single_file in Hpair. rewrite add_never_raises.
    destruct (nonempty _); injection Hpair as <- <-; reflexivity.
Qed.

Lemma ingest_upload_ok k file total results coll :
  ingest_upload B write_file read_back add_error remove_file k file total
                results coll
  = (coll ++ upload_calls write_file read_back k file,
     (total + chunks_in (upload_calls write_file read_back k file),
      <[filename file := upload_detail write_file read_back remove_file k
                                       file]> results)).
Proof.
  unfold ingest_upload, upload_calls, upload_detail.
  destruct (write_file k _ (data file)) as [message|].
  { now rewrite app_nil_r, chunks_in_nil, Z.add_0_r. }
  destruct (read_back k _ (data file)) as [message|content].
  { now rewrite app_nil_r, chunks_in_nil, Z.add_0_r. }
  rewrite ingest_file_or_raise_ok, chunks_in_submitted.
  destruct (remove_file k _) as [message|]; [|reflexivity].
  now rewrite insert_insert_eq.
Qed.

Lemma ingest_files_loop_ok files k total results coll :
  ingest_files_loop B write_file read_back add_error remove_file files k
                    total results coll
  = (coll ++ concat (imap (fun j => upload_calls write_file read_back (k + j))
                          files),
     (total
      + chunks_in (concat (imap (fun j => upload_calls write_file read_back
                                                       (k + j)) files)),
      foldl (fun r (kf : nat * upload B) =>
               <[filename kf.2 := upload_detail write_file read_back
                                                remove_file kf.1 kf.2]> r)
            results (imap (fun j file => ((k + j)%nat, file)) files))).
Proof.
  revert k total results coll.
  induction files as [|file rest IH]; intros k total results coll.
  - cbn [ingest_files_loop imap concat foldl].
    now rewrite app_nil_r, chunks_in_nil, Z.add_0_r.
  - cbn [ingest_files_loop imap concat foldl]. rewrite ingest_upload_ok, IH.
    rewrite Nat.add_0_r. cbn [fst snd].
    assert (Hcalls : imap ((fun j => upload_calls write_file read_back
                                                  (k + j)) ∘ S) rest
                     = imap (fun j => upload_calls write_file read_back
                                                   (S k + j)) rest).
    { apply imap_ext. intros j x _. simpl. now rewrite Nat.add_succ_r. }
    assert (Hpairs : imap ((fun j file0 => ((k + j)%nat, file0)) ∘ S) rest
                     = imap (fun j file0 => ((S k + j)%nat, file0)) rest).
    { apply imap_ext. intros j x _. simpl. now rewrite Nat.add_succ_r. }
    rewrite Hcalls, Hpairs, chunks_in_app, <- app_assoc.
    do 2 f_equal. lia.
Qed.

End UploadFacts.

Lemma foldl_insert_lookup {A : Type} (key : A -> str) (entry : A -> detail)
    (l : list A) (results : gmap (list N) detail) (name : str) :
  foldl (fun r x => <[key x := entry x]> r) results l !! name
  = match last (List.filter (fun x => bool_decide (key x = name)) l) with
    | Some x => Some (entry x)
    | None => results !! name
    end.
Proof.
  revert results. induction l as [|x rest IH] using rev_ind;
    intros results; [reflexivity|].
  rewrite foldl_app, List.filter_app. cbn [foldl List.filter].
  destruct (bool_decide_reflect (key x = name)) as [E|Hne].
  - rewrite last_snoc, E. apply lookup_insert_eq.
  - rewrite app_nil_r, lookup_insert_ne by exact Hne. apply IH.
Qed.



(** ** The schema registry *)

Section DictFacts.

Context {V : Type}.

Lemma dict_get_Some (d : list (str * V)) key v :
  dict_get d key = Some v -> In (key, v) d.
Proof.
  induction d as [|[k w] d IH]; [discriminate|]. simpl.
  destruct (bool_decide_reflect (k = key)) as [->|Hne].
  - intros H. injection H as ->. now left.
  - intros H. right. now apply IH.
Qed.

Lemma dict_get_None (d : list (str * V)) key :
  dict_get d key = None -> ~ In key (dict_keys d).
Proof.
  induction d as [|[k w] d IH]; [intros _ []|]. simpl.
  destruct (bool_decide_reflect (k = key)) as [->|Hne]; [discriminate|].
  intros H [E|Hin]; [contradiction | now apply IH].
Qed.

(** Looking up in a dict whose values were mapped. *)
Lemma dict_get_fmap {W : Type} (g : str -> V -> W) (d : list (str * V))
    (key : str) :
  dict_get ((fun kv : str * V => (kv.1, g kv.1 kv.2)) <$> d) key
  = g key <$> dict_get d key.
Proof.
  induction d as [|[k v] d IH]; [reflexivity|].
  cbn [fmap list_fmap dict_get fst snd].
  destruct (bool_decide_reflect (k = key)) as [->|Hne]; [reflexivity|].
  exact IH.
Qed.

End DictFacts.

(** X15. [/schemas] lists the five registered names in the order of the
    registry, without repetition, and its [details] has one entry per name,
    in the same order. [get_schema] returns a class exactly for these
    names, and [details] holds under that name the docstring and the fields
    of the class that [get_schema] returns; for every other name
    [get_schema] raises [ValueError] with a message that quotes the name
    and lists the five registered names in registry order. *)
Theorem get_schema_and_list_schemas (schema_type : str) :
  list_schemas.1
  = [py "recipe"; py "invoice"; py "feedback"; py "design_pattern";
     py "pdf_summary"]
  /\ list_schemas.2.*1 = list_schemas.1
  /\ NoDup list_schemas.1
  /\ match get_schema schema_type with
     | inr schema =>
         In schema_type list_schemas.1
         /\ dict_get list_schemas.2 schema_type
            = Some (schema_doc schema, model_fields schema)
     | inl e =>
         ~ In schema_type list_schemas.1
         /\ dict_get list_schemas.2 schema_type = None
         /\ e = ValueError
                  (py "Unknown schema type: " ++ schema_type
                   ++ py ". Available types: recipe, invoice, feedback, design_pattern, pdf_summary")
     end.
Proof.
  split; [reflexivity|]. split; [reflexivity|]. split.
  { apply (bool_decide_unpack (NoDup list_schemas.1)). vm_compute.
    exact I. }
  assert (Hdetails :
            list_schemas.2
            = (fun kv : str * schema_class =>
                 (kv.1, (schema_doc kv.2, model_fields kv.2)))
              <$> SCHEMA_REGISTRY).
  { unfold list_schemas. cbn [snd]. apply list_fmap_ext.
    intros _ [name schema] _. cbn [fst snd]. now destruct schema. }
  rewrite Hdetails.
  rewrite (dict_get_fmap (fun _ schema =>
                            (schema_doc schema, model_fields schema))).
  unfold get_schema.
  destruct (dict_get SCHEMA_REGISTRY schema_type) as [schema|] eqn:E.
  - apply dict_get_Some in E. split; [|reflexivity].
    unfold list_schemas, dict_keys. cbn [fst].
    apply list_elem_of_In, list_elem_of_fmap.
    exists (schema_type, schema). split; [reflexivity|].
    now apply list_elem_of_In.
  - apply dict_get_None in E. split; [exact E|]. split; reflexivity.
Qed.

(** ** The endpoints that check their request *)

(** X16. The three endpoints that raise a 400 for a bad request do so
    inside the [try] whose handler catches every exception, so the client
    gets status 500 instead, with the text of the 400 as detail, and the
    engine is not called: more than 20 URLs for [/analyze-urls], an unknown
    schema name without a custom schema for [/extract-structured], an empty
    [store_name] for [/file-search/upload]. No error answer of these
    endpoints has a status other than 500. *)
Theorem bad_requests_answer_500 (http_str : Z -> str -> str)
    (R J D U : Type)
    (engine_analyze_urls : str -> list str -> exn + R)
    (generate_structured_output : str -> schema_arg J -> option str -> exn + D)
    (engine_upload : str -> str -> str -> exn + U) :
  (forall prompt urls,
     20 < len urls ->
     analyze_urls http_str engine_analyze_urls prompt urls
     = inl (HTTPException 500
              (http_str 400 (py "Maximum 20 URLs allowed"))))
  /\ (forall request : structured_request J,
        custom_schema request = None \/ custom_schema request = Some [] ->
        ~ In (schema_type request) (dict_keys SCHEMA_REGISTRY) ->
        extract_structured http_str generate_structured_output request
        = inl (HTTPException 500
                 (http_str 400
                    (py "Unknown schema type: " ++ schema_type request
                     ++ py ". Available types: recipe, invoice, feedback, design_pattern, pdf_summary"))))
  /\ (forall file_name display_name,
        upload_to_file_search_endpoint http_str engine_upload file_name []
                                       display_name
        = inl (HTTPException 500
                 (http_str 400 (py "store_name is required"))))
  /\ (forall prompt urls e,
        analyze_urls http_str engine_analyze_urls prompt urls = inl e ->
        exists d, e = HTTPException 500 d)
  /\ (forall request e,
        extract_structured http_str generate_structured_output request
        = inl e ->
        exists d, e = HTTPException 500 d)
  /\ (forall file_name store_name display_name e,
        upload_to_file_search_endpoint http_str engine_upload file_name
                                       store_name display_name
        = inl e ->
        exists d, e = HTTPException 500 d).
Proof.
  assert (H500 : forall (T : Type) (body : exn + T) e,
             reraise_500 http_str body = inl e ->
             exists d, e = HTTPException 500 d).
  { intros T [e'|r] e H; [|discriminate]. injection H as <-. eauto. }
  split; [|split; [|split; [|split; [|split]]]].
  - intros prompt urls Hlen. unfold analyze_urls.
    destruct (Z.ltb_spec 20 (len urls)); [reflexivity | lia].
  - intros request Hcustom Hunknown. unfold extract_structured, get_schema.
    destruct (dict_get SCHEMA_REGISTRY (schema_type request)) as [c|] eqn:E.
    + exfalso. apply Hunknown. apply dict_get_Some in E.
      unfold dict_keys. apply list_elem_of_In, list_elem_of_fmap.
      exists (schema_type request, c). split; [reflexivity|].
      now apply list_elem_of_In.
    + destruct Hcustom as [-> | ->]; reflexivity.
  - reflexivity.
  - intros prompt urls e. apply H500.
  - intros request e. apply H500.
  - intros file_name store_name display_name e. apply H500.
Qed.

Lemma bad_requests_answer_500_witness :
  analyze_urls (fun _ detail_text => detail_text)
               (fun _ _ => inr 0%nat) (py "compare") (replicate 21 (py "u"))
  = inl (HTTPException 500 (py "Maximum 20 URLs allowed")).
Proof.
  apply (bad_requests_answer_500 (fun _ detail_text => detail_text)
           nat nat nat nat (fun _ _ => inr 0%nat)
           (fun _ _ _ => inr 0%nat) (fun _ _ _ => inr 0%nat)).
  vm_compute. reflexivity.
Defined.

(** ** The rows of a search *)

Section SearchBounds.

Lemma search_rows_short docs metas n i sources :
  (i + n <= length docs)%nat -> (i <= length metas < i + n)%nat ->
  search_rows docs metas (seq i n) sources = None.
Proof.
  revert i sources. induction n as [|n IH]; intros i sources Hd Hm; [lia|].
  cbn [seq search_rows].
  destruct (lookup_lt_is_Some_2 docs i ltac:(lia)) as [d ->].
  destruct (metas !! i) as [m|] eqn:Em; [|reflexivity].
  apply lookup_lt_Some in Em. apply IH; lia.
Qed.

End SearchBounds.

(** X17. [search] pairs the documents the store returns with their metadata
    by position. It returns as many sources as there are documents,
    whatever [n_results] is; metadata records beyond the documents are
    ignored; and it fails (an [IndexError]) exactly when the store returns
    fewer metadata records than documents. *)
Theorem search_follows_documents
    (query : str -> Z -> list str * list (gmap string value))
    (q : str) (n_results : Z) :
  let docs := (query q n_results).1 in
  let metas := (query q n_results).2 in
  if decide (length metas < length docs)%nat
  then search query q n_results = None
  else search query q n_results = Some (zip_with Source docs metas)
       /\ length (zip_with Source docs metas) = length docs.
Proof.
  cbv zeta. unfold search.
  destruct (query q n_results) as [docs metas]. cbn [fst snd].
  destruct (decide (length metas < length docs)%nat) as [Hlt|Hge].
  - apply search_rows_short; simpl; lia.
  - split.
    + rewrite search_rows_seq by (simpl; lia).
      rewrite !drop_0, take_ge by lia. simpl. f_equal.
      apply zip_with_take_longer.
    + rewrite length_zip_with. lia.
Qed.

(** ** The parts of a code execution *)

Section CodeExecutionFacts.

Context {V : Type}.
Variable literal : str -> V.

(** What a part gives to [code_parts] and to [output_parts]. *)
Let code_of (p : part V) : option (V * V) :=
  match executable_code p with
  | HasAttr (Some ec) =>
      Some (match language ec with
            | HasAttr l => l
            | NoAttr => literal (py "PYTHON")
            end,
            code ec)
  | _ => None
  end.

Let output_of (p : part V) : option (V * V) :=
  match code_execution_result p with
  | HasAttr (Some r) =>
      Some (match outcome r with
            | HasAttr o => o
            | NoAttr => literal (py "OUTCOME_OK")
            end,
            output r)
  | _ => None
  end.

Lemma execute_code_parts_from (parts : list (part V))
    (result : execution_result V) :
  execute_code_parts V literal parts result
  = ExecutionResult (text_parts result ++ omap part_text parts)
      (code_parts result ++ omap code_of parts)
      (output_parts result ++ omap output_of parts).
Proof.
  revert result. induction parts as [|p rest IH]; intros result.
  - destruct result. simpl. now rewrite !app_nil_r.
  - cbn [execute_code_parts omap list_omap]. rewrite IH.
    unfold code_of at 2, output_of at 2.
    destruct (part_text p), (executable_code p) as [|[ec|]],
      (code_execution_result p) as [|[r|]]; simpl;
      now rewrite <- ?app_assoc.
Qed.

End CodeExecutionFacts.

(** X18. [execute_code] fails when the response has no candidate, and
    otherwise looks at the first candidate only and sorts its parts into
    the three lists without loss and in order. [text_parts] holds the text
    of every part that has one. [code_parts] holds one (language, code)
    pair for every part whose [executable_code] is present and not [None],
    the language being ["PYTHON"] when the object has no [language]
    attribute. [output_parts] holds one (outcome, output) pair for every
    part whose [code_execution_result] is present and not [None], the
    outcome being ["OUTCOME_OK"] when the object has no [outcome]
    attribute. *)
Theorem execute_code_sorts_parts (V : Type) (literal : str -> V)
    (candidates : list (list (part V))) :
  match candidates with
  | [] => execute_code V literal candidates = None
  | parts :: _ =>
      execute_code V literal candidates
      = Some (ExecutionResult
                (omap part_text parts)
                (omap (fun p =>
                         match executable_code p with
                         | HasAttr (Some ec) =>
                             Some (match language ec with
                                   | HasAttr l => l
                                   | NoAttr => literal (py "PYTHON")
                                   end,
                                   code ec)
                         | HasAttr None | NoAttr => None
                         end) parts)
                (omap (fun p =>
                         match code_execution_result p with
                         | HasAttr (Some r) =>
                             Some (match outcome r with
                                   | HasAttr o => o
                                   | NoAttr => literal (py "OUTCOME_OK")
                                   end,
                                   output r)
                         | HasAttr None | NoAttr => None
                         end) parts))
  end.
Proof.
  destruct candidates as [|parts others]; [reflexivity|].
  unfold execute_code. now rewrite execute_code_parts_from.
Qed.

(** ** Waiting for an upload *)

Section WaitFacts.

Variable get_operation : nat -> operation -> operation.
Variable first : operation.

Lemma wait_until_done_at (n : nat) :
  (forall k, (k < n)%nat ->
             done (operation_after get_operation first k) = false) ->
  done (operation_after get_operation first n) = true ->
  forall fuel i,
    (i <= n)%nat -> (n - i < fuel)%nat ->
    wait_until_done get_operation fuel i
                    (operation_after get_operation first i)
    = Some (n, operation_after get_operation first n).
Proof.
  intros Hbefore Hdone fuel.
  induction fuel as [|fuel IH]; intros i Hi Hfuel; [lia|].
  cbn [wait_until_done].
  destruct (decide (i = n)) as [->|Hne].
  - now rewrite Hdone.
  - rewrite Hbefore by lia.
    change (get_operation i (operation_after get_operation first i))
      with (operation_after get_operation first (S i)).
    apply IH; lia.
Qed.

Lemma wait_until_done_never :
  (forall k, done (operation_after get_operation first k) = false) ->
  forall fuel i,
    wait_until_done get_operation fuel i
                    (operation_after get_operation first i)
    = None.
Proof.
  intros Hnever fuel.
  induction fuel as [|fuel IH]; intros i; [reflexivity|].
  cbn [wait_until_done]. rewrite Hnever.
  change (get_operation i (operation_after get_operation first i))
    with (operation_after get_operation first (S i)).
  apply IH.
Qed.

End WaitFacts.

(** X19. [upload_to_file_search] returns as soon as the operation is seen
    done: if that is first the case after [n] polls, it has slept [n] times
    and returns the status ["completed"] with the name of the operation as
    it is then; if the operation is never reported done, the loop never
    ends. The display name reaches the store only when it is not empty. *)
Theorem upload_waits_for_done
    (upload_to_store : str -> str -> option str -> operation)
    (get_operation : nat -> operation -> operation)
    (file_path store_name : str) (display_name : option str) :
  let config :=
    match display_name with
    | Some [] | None => None
    | Some d => Some d
    end in
  let first := upload_to_store file_path store_name config in
  (forall n : nat,
     (forall k, (k < n)%nat ->
                done (operation_after get_operation first k) = false) ->
     done (operation_after get_operation first n) = true ->
     forall fuel, (n < fuel)%nat ->
       upload_to_file_search upload_to_store get_operation fuel file_path
                             store_name display_name
       = Some (n, (py "completed",
                   operation_name (operation_after get_operation first n))))
  /\ ((forall k, done (operation_after get_operation first k) = false) ->
      forall fuel,
        upload_to_file_search upload_to_store get_operation fuel file_path
                              store_name display_name
        = None).
Proof.
  cbv zeta. unfold upload_to_file_search.
  split.
  - intros n Hbefore Hdone fuel Hfuel.
    pose proof (wait_until_done_at get_operation _ n Hbefore Hdone fuel O
                  ltac:(lia) ltac:(lia)) as Hw.
    cbn [operation_after] in Hw. now rewrite Hw.
  - intros Hnever fuel.
    pose proof (wait_until_done_never get_operation _ Hnever fuel O) as Hw.
    cbn [operation_after] in Hw. now rewrite Hw.
Qed.

Lemma upload_waits_for_done_witness :
  upload_to_file_search
    (fun _ _ _ => Operation false (py "operations/7"))
    (fun k op => Operation (Nat.leb 2 k) (operation_name op))
    5 (py "/tmp/deepy_file_search/a.txt") (py "stores/s") (Some [])
  = Some (3%nat, (py "completed", py "operations/7")).
Proof.
  apply (proj1 (upload_waits_for_done
                  (fun _ _ _ => Operation false (py "operations/7"))
                  (fun k op => Operation (Nat.leb 2 k) (operation_name op))
                  (py "/tmp/deepy_file_search/a.txt") (py "stores/s")
                  (Some [])) 3%nat).
  - intros [|[|[|k]]] Hk; try reflexivity. lia.
  - reflexivity.
  - lia.
Defined.
